(** * action.toolkit: parameter resolution for GitHub Actions written in Python

    A shallow embedding of [src/action/toolkit/toolkit.py]: the [ActionSpec]
    dataclass, [get_env], [parse_arguments] and [action_main], together with
    the parts of the Python runtime they go through ([os.getenv],
    [os.path.expandvars], [argparse], [logging], [print], [exit]).

    Strings are byte strings ([string]); [str.upper] is the ASCII one.
    Python dictionaries keep insertion order, so they are association lists.
    Logging, printing, calls of the caller-supplied functions and
    termination are recorded by a small trace-and-outcome monad. *)

From Stdlib Require Import Ascii String ZArith.
From stdpp Require Import base strings gmap list sorting pretty.

(** ** Python values and dictionaries *)

(** The scalar values a YAML manifest, the environment or the command line
    can put into an argument (floats, sequences and nested mappings are
    left out). *)
Inductive value : Type :=
  | VNone
  | VStr (s : string)
  | VBool (b : bool)
  | VInt (n : Z).

#[global] Instance value_eq_dec : EqDecision value.
Proof. solve_decision. Defined.

(** [bool(v)]. *)
Definition truthy (v : value) : bool :=
  match v with
  | VNone => false
  | VStr s => negb (String.eqb s "")
  | VBool b => b
  | VInt n => negb (Z.eqb n 0)
  end.

(** [str(v)], as used by [%s] and by f-strings. *)
Definition py_str (v : value) : string :=
  match v with
  | VNone => "None"
  | VStr s => s
  | VBool true => "True"
  | VBool false => "False"
  | VInt n => pretty n
  end.

(** A [dict] with [str] keys, in insertion order. *)
Definition dict (A : Type) : Type := list (string * A).

Definition keys {A} (d : dict A) : list string := d.*1.

(** [d.get(k)], [None] when the key is absent. *)
Fixpoint dict_get {A} (k : string) (d : dict A) : option A :=
  match d with
  | [] => None
  | (k', v) :: d' => if decide (k = k') then Some v else dict_get k d'
  end.

(** [k in d]. *)
Definition dict_contains {A} (k : string) (d : dict A) : bool :=
  bool_decide (is_Some (dict_get k d)).

(** [d[k] = v]: an existing key keeps its place, a new one goes last. *)
Fixpoint dict_set {A} (k : string) (v : A) (d : dict A) : dict A :=
  match d with
  | [] => [(k, v)]
  | (k', v') :: d' =>
      if decide (k = k') then (k, v) :: d' else (k', v') :: dict_set k v d'
  end.

(** [d.get(k, default)] on a dictionary of values. *)
Definition get_or (k : string) (default : value) (d : dict value) : value :=
  from_option id default (dict_get k d).

(** ** String operations *)

(** [c.upper()] on an ASCII character. *)
Definition ascii_upper (c : ascii) : ascii :=
  if (Ascii.leb "a" c && Ascii.leb c "z")%char
  then ascii_of_N (N_of_ascii c - 32)
  else c.

(** [s.upper()] on a string of ASCII characters: the letters [a] to [z]
    become [A] to [Z]. A character outside ASCII is left as it is, where
    Python follows the tables of Unicode; the statements about the names
    looked up in the environment are about strings of ASCII characters. *)
Fixpoint upper (s : string) : string :=
  match s with
  | "" => ""
  | String c s' => String (ascii_upper c) (upper s')
  end.

(** [s.replace(old, new)] for a one-character [old]. *)
Fixpoint replace (old : ascii) (new : string) (s : string) : string :=
  match s with
  | "" => ""
  | String c s' =>
      if Ascii.eqb c old then new +:+ replace old new s'
      else String c (replace old new s')
  end.

(** [s.lstrip(c)] for a one-character set. *)
Fixpoint lstrip (c : ascii) (s : string) : string :=
  match s with
  | "" => ""
  | String c' s' => if Ascii.eqb c' c then lstrip c s' else s
  end.

(** ** The process environment *)

(** [os.environ]. *)
Abbreviation environment := (gmap string string).

(** [os.getenv(name, None)]. *)
Definition getenv (environ : environment) (name : string) : option string :=
  environ !! name.

(** *** [os.path.expandvars]

    The POSIX version: every match of the regular expression
    [\$(\w+|\{[^}]*\})] (ASCII [\w]) whose name is bound in the
    environment is replaced by the binding; a match whose name is unbound
    is left as it is, and the scan goes on after it. An inserted value is
    not scanned again. (Later versions of [posixpath] also take a [${] that
    no brace closes together with all the text after it, and leave both as
    they are; the two agree on a text in which every [${] is closed.) *)

(** [\w] under [re.ASCII]. *)
Definition is_word (c : ascii) : bool :=
  (Ascii.leb "a" c && Ascii.leb c "z")
  || (Ascii.leb "A" c && Ascii.leb c "Z")
  || (Ascii.leb "0" c && Ascii.leb c "9")
  || Ascii.eqb c "_".

(** The longest prefix matched by [\w*]. *)
Fixpoint span_word (s : string) : string :=
  match s with
  | "" => ""
  | String c s' => if is_word c then String c (span_word s') else ""
  end.

(** What [[^}]*] matches when a closing brace follows; [None] when the
    string has no closing brace. *)
Fixpoint brace_body (s : string) : option string :=
  match s with
  | "" => None
  | String c s' =>
      if Ascii.eqb c "}" then Some "" else String c <$> brace_body s'
  end.

(** The match of [(\w+|\{[^}]*\})] at the start of [s], the text after a
    dollar sign: the variable's name and the number of characters matched. *)
Definition match_var (s : string) : option (string * nat) :=
  match s with
  | String "{" s' =>
      match brace_body s' with
      | Some name => Some (name, 2 + String.length name)
      | None => None
      end
  | _ =>
      let name := span_word s in
      if String.eqb name "" then None else Some (name, String.length name)
  end.

(** The scan of [expandvars]: [copy] characters are still to be left as they
    are (the rest of an unbound reference), [drop] characters are still to
    be skipped (the rest of a replaced reference). *)
Fixpoint expandvars_scan (environ : environment) (copy drop : nat)
    (path : string) : string :=
  match path with
  | "" => ""
  | String c rest =>
      match drop, copy with
      | S drop', _ => expandvars_scan environ copy drop' rest
      | O, S copy' => String c (expandvars_scan environ copy' 0 rest)
      | O, O =>
          if Ascii.eqb c "$" then
            match match_var rest with
            | Some (name, n) =>
                match environ !! name with
                | Some value => value +:+ expandvars_scan environ 0 n rest
                | None => String c (expandvars_scan environ n 0 rest)
                end
            | None => String c (expandvars_scan environ 0 0 rest)
            end
          else String c (expandvars_scan environ 0 0 rest)
      end
  end.

Definition expandvars (environ : environment) (path : string) : string :=
  expandvars_scan environ 0 0 path.

(** ** Effects: trace and outcome *)

Inductive level : Type := INFO | ERROR.

(** What a run does that its caller can observe: records sent to the module's
    logger, lines printed on standard output, calls of the two functions the
    [ActionSpec] carries, and the usage text of [argparse]. *)
Inductive event : Type :=
  | Log (lvl : level) (message : string)
  | Print (line : string)
  | CallSetDefaults (args : dict value)
  | CallDoAction (args : dict value)
  | PrintHelp.

Inductive exception : Type :=
  | FileNotFoundError
  | AttributeError
  | ValueError
  | ArgumentError.

(** How a run ends: it returns, [SystemExit] leaves the process with a
    status, or an exception goes up. *)
Inductive outcome (A : Type) : Type :=
  | Returned (a : A)
  | Exited (status : Z)
  | Raised (e : exception).
Arguments Returned {A} a.
Arguments Exited {A} status.
Arguments Raised {A} e.

Definition M (A : Type) : Type := list event * outcome A.

#[global] Instance M_ret : MRet M := λ A a, ([], Returned a).

#[global] Instance M_bind : MBind M := λ A B f m,
  match m.2 with
  | Returned a => let r := f a in (m.1 ++ r.1, r.2)
  | Exited status => (m.1, Exited status)
  | Raised e => (m.1, Raised e)
  end.

Definition emit (e : event) : M unit := ([e], Returned tt).
Definition sys_exit {A} (status : Z) : M A := ([], Exited status).
Definition raise {A} (e : exception) : M A := ([], Raised e).

(** The lines a trace puts on standard output. *)
Definition stdout (t : list event) : list string :=
  omap (λ e, match e with Print line => Some line | _ => None end) t.

(** [for x in l: body(x)]. *)
Fixpoint for_each {A} (l : list A) (body : A → M unit) : M unit :=
  match l with
  | [] => mret tt
  | x :: l' => body x;; for_each l' body
  end.

(** ** [ActionSpec] *)

Module ActionSpec.
(** The dataclass. The three fields declared [str = None] hold [None] or a
    string; the two callables are optional. *)
Record t : Type := Build {
  filename : string;
  name : string;
  long_name : option string;
  description : option string;
  env_prefix : option string;
  set_defaults : option (dict value → dict value);
  do_action : option (dict value → dict value);
}.

(** [x or y] for [x] that is [None] or a string. *)
Definition or (x : option string) (y : string) : string :=
  match x with
  | Some s => if String.eqb s "" then y else s
  | None => y
  end.

Definition __post_init__ (self : t) : t :=
  {| filename := filename self;
     name := name self;
     long_name := Some (or (long_name self) (name self));
     description := Some (or (description self) (name self));
     env_prefix := Some (or (env_prefix self) (name self));
     set_defaults := set_defaults self;
     do_action := do_action self |}.

(** [ActionSpec(filename=..., name=..., ...)]: the generated [__init__]
    stores the fields and runs [__post_init__]. *)
Definition new (filename name : string)
    (long_name description env_prefix : option string)
    (set_defaults do_action : option (dict value → dict value)) : t :=
  __post_init__
    (Build filename name long_name description env_prefix
           set_defaults do_action).
End ActionSpec.

(** ** [get_env] *)

Fixpoint get_env (environ : environment) (envar_list : list string)
    (default : value) : value :=
  match envar_list with
  | [] => default
  | n :: envar_list' =>
      let value := from_option VStr VNone (getenv environ n) in
      if truthy value then value else get_env environ envar_list' default
  end.

(** ** [argparse] *)

(** [argparse.Namespace]: attribute names and their values. *)
Abbreviation Namespace := (dict value).

Module argparse.
(** The two kinds of action [parse_arguments] meets: the [-h/--help]
    action every parser starts with (its [dest] and [default] are
    [SUPPRESS]) and the [store] action of [add_argument]. *)
Inductive Action : Type :=
  | HelpAction (option_strings : list string)
  | StoreAction (option_strings : list string) (dest : string)
                (default : value) (help : value).

Definition option_strings (a : Action) : list string :=
  match a with
  | HelpAction os => os
  | StoreAction os _ _ _ => os
  end.

Record ArgumentParser : Type := BuildParser {
  description : option string;
  actions : list Action;
}.

(** [argparse.ArgumentParser(description=d)]. *)
Definition new (d : option string) : ArgumentParser :=
  BuildParser d [HelpAction ["-h"; "--help"]].

(** [parser.add_argument(flag, required=False, type=str, default=...,
    help=...)] for a flag starting with two dashes. The attribute name is
    the flag without its leading dashes and with the other dashes turned
    into underscores; an empty one is a [ValueError], a flag already taken
    an [ArgumentError]. *)
Definition add_argument (parser : ArgumentParser) (flag : string)
    (default help : value) : M ArgumentParser :=
  let dest := lstrip "-" flag in
  if decide (dest = "") then raise ValueError
  else if decide (flag ∈ (actions parser ≫= option_strings))
  then raise ArgumentError
  else mret (BuildParser (description parser)
               (actions parser
                ++ [StoreAction [flag] (replace "-" "_" dest) default help])).

(** The first step of [parse_args]: every action whose attribute is not
    yet present gets its default. *)
Definition add_defaults (actions : list Action) : Namespace :=
  foldl (λ namespace a,
           match a with
           | HelpAction _ => namespace
           | StoreAction _ dest default _ =>
               if dict_contains dest namespace then namespace
               else dict_set dest default namespace
           end) [] actions.

Definition find_action (parser : ArgumentParser) (flag : string)
    : option Action :=
  head (filter (λ a, flag ∈ option_strings a) (actions parser)).

(** The second step: the options of the command line from left to right,
    each an option string followed by its argument. A [store] action sets
    its attribute to the string given ([type=str]); the help action prints
    the usage and exits with status 0 (how the help text is formatted is
    not modelled); an option of no action is reported at the end, with exit
    status 2. An option string is looked up as it is written: [argparse]
    also completes the beginning of an option string and splits
    [--flag=arg], and a command line is given here with that done. *)
Fixpoint consume (parser : ArgumentParser) (argv : list (string * string))
    (namespace : Namespace) (extras : bool) : M Namespace :=
  match argv with
  | [] => if extras then sys_exit 2 else mret namespace
  | (flag, arg) :: argv' =>
      match find_action parser flag with
      | Some (HelpAction _) => emit PrintHelp;; sys_exit 0
      | Some (StoreAction _ dest _ _) =>
          consume parser argv' (dict_set dest (VStr arg) namespace) extras
      | None => consume parser argv' namespace true
      end
  end.

(** [parser.parse_args()]. The command line is given as the options it
    holds, each a flag (as [argparse] resolved it: abbreviations
    completed) with its argument; a command line that ends with a flag
    without its argument is not among them. *)
Definition parse_args (parser : ArgumentParser)
    (argv : list (string * string)) : M Namespace :=
  consume parser argv (add_defaults (actions parser)) false.
End argparse.

(** ** [parse_arguments] *)

Module ArgSpec.
(** The named tuple [ArgSpec]. *)
Record t : Type := Build {
  name : string;
  default : value;
  help : value;
  required : value;
}.
End ArgSpec.

(** What a run reads from outside: the environment, the [inputs] section of
    the YAML document stored under each path (every input a string with its
    own mapping), and the options of the command line. A file that holds no
    such document, or a document without an [inputs] section, is not among
    the files of a [World]. *)
Record World : Type := BuildWorld {
  environ : environment;
  files : gmap string (dict (dict value));
  argv : list (string * string);
}.

(** The loop over [y['inputs']]: one [ArgSpec] per input, in the order of
    the manifest. *)
Definition read_inputs (environ : environment) (inputs : dict (dict value))
    : list ArgSpec.t :=
  (λ '(input, input_dict),
     let default := get_or "default" VNone input_dict in
     let default :=
       match default with
       | VStr s => VStr (expandvars environ s)
       | _ => default
       end in
     ArgSpec.Build input default
       (get_or "help" VNone input_dict)
       (get_or "required" (VBool false) input_dict)) <$> inputs.

(** [x.replace(...)] on a field that may hold [None]. *)
Definition attr_str (x : option string) : M string :=
  match x with
  | Some s => mret s
  | None => raise AttributeError
  end.

(** The loop of [parser.add_argument] calls. *)
Fixpoint add_arguments (environ : environment) (env_prefix : option string)
    (arguments : list ArgSpec.t) (parser : argparse.ArgumentParser)
    : M argparse.ArgumentParser :=
  match arguments with
  | [] => mret parser
  | arg_spec :: arguments' =>
      prefix ← attr_str env_prefix;
      parser ← argparse.add_argument parser
        ("--" +:+ ArgSpec.name arg_spec)
        (get_env environ
           [ upper (replace " " "" prefix) +:+ "_"
               +:+ upper (ArgSpec.name arg_spec);
             "INPUT_" +:+ upper (ArgSpec.name arg_spec) ]
           (ArgSpec.default arg_spec))
        (ArgSpec.help arg_spec);
      add_arguments environ env_prefix arguments' parser
  end.

(** The loop that checks the required arguments, with the variable
    [missing_args] it updates. *)
Fixpoint check_required (args : Namespace) (arguments : list ArgSpec.t)
    (missing_args : bool) : M bool :=
  match arguments with
  | [] => mret missing_args
  | arg_spec :: arguments' =>
      if truthy (ArgSpec.required arg_spec)
           && negb (dict_contains (ArgSpec.name arg_spec) args)
      then
        emit (Log ERROR
                ("Missing required argument " +:+ ArgSpec.name arg_spec));;
        check_required args arguments' true
      else check_required args arguments' missing_args
  end.

(** [open(action_spec.filename)] and [yaml.load(...)['inputs']], for the
    manifests of a [World]: the file is there with its [inputs] section, or
    it is not there at all. *)
Definition open_manifest (w : World) (path : string)
    : M (dict (dict value)) :=
  match files w !! path with
  | Some inputs => mret inputs
  | None => raise FileNotFoundError
  end.

Definition parse_arguments (w : World) (action_spec : ActionSpec.t)
    : M (Namespace * bool) :=
  inputs ← open_manifest w (ActionSpec.filename action_spec);
  let arguments := read_inputs (environ w) inputs in
  parser ← add_arguments (environ w) (ActionSpec.env_prefix action_spec)
             arguments
             (argparse.new (ActionSpec.description action_spec));
  args ← argparse.parse_args parser (argv w);
  missing_args ← check_required args arguments false;
  mret (args, missing_args).

(** ** [action_main] *)

(** [sorted(args.items())]: the items by key. The keys of a dictionary are
    distinct, so the order of the pairs is the order of their keys. *)
Definition key_le (p q : string * value) : Prop := String.le p.1 q.1.

#[global] Instance key_le_dec : RelDecision key_le.
Proof. intros p q. unfold key_le. apply _. Defined.

Definition sorted_items (args : dict value) : list (string * value) :=
  merge_sort key_le args.

(** The body of the loop that logs the arguments. *)
Definition log_argument (item : string * value) : M unit :=
  let '(arg, val) := item in
  if decide (arg = "token") then
    emit (Log INFO ("  " +:+ arg +:+ "=********:"))
  else
    emit (Log INFO ("  " +:+ arg +:+ "=" +:+ py_str val +:+ ":")).

Definition log_arguments (args : dict value) : M unit :=
  for_each (sorted_items args) log_argument.

(** [str(x)] of a field that may hold [None]. *)
Definition str_of (x : option string) : string :=
  from_option id "None" x.

Definition action_main (w : World) (action_spec : ActionSpec.t)
    : M (dict value) :=
  '(args, missing_args) ← parse_arguments w action_spec;
  args ← match ActionSpec.set_defaults action_spec with
         | Some set_defaults =>
             emit (CallSetDefaults args);; mret (set_defaults args)
         | None => mret args
         end;
  emit (Log INFO
          (str_of (ActionSpec.long_name action_spec) +:+ ", with arguments:"));;
  log_arguments args;;
  (if missing_args : bool then
     emit (Log ERROR "Some required arguments are missing!");;
     sys_exit 1
   else mret tt);;
  match ActionSpec.do_action action_spec with
  | Some do_action =>
      emit (CallDoAction args);;
      let outputs := do_action args in
      for_each outputs (λ '(name, result),
        emit (Print ("::set-output name=" +:+ name +:+ "::"
                       +:+ py_str result)));;
      for_each outputs (λ '(name, result),
        emit (Print ("set-output name=" +:+ name +:+ "::"
                       +:+ py_str result)));;
      mret outputs
  | None => mret []
  end.

(** * Vocabulary of the statements *)

(** ** Sources of a value *)

(** The value a name is set to, when it is set to a non-empty string. *)
Definition set_nonempty (environ : environment) (n : string) : option string :=
  match environ !! n with
  | Some s => if String.eqb s "" then None else Some s
  | None => None
  end.

(** [bool(x)] for [x] that is [None] or a string. *)
Definition given (x : option string) : bool :=
  match x with
  | Some s => negb (String.eqb s "")
  | None => false
  end.

(** ** The log of the arguments *)

#[global] Instance key_le_trans : Transitive key_le.
Proof. intros p q r. unfold key_le. apply transitivity. Qed.

#[global] Instance key_le_total : Total key_le.
Proof. intros p q. unfold key_le. apply total, _. Qed.

(** The record the loop logs for one item. *)
Definition argument_record (item : string * value) : event :=
  if decide (item.1 = "token") then Log INFO "  token=********:"
  else Log INFO ("  " +:+ item.1 +:+ "=" +:+ py_str item.2 +:+ ":").

(** An item with the value of [token] blanked. *)
Definition redact (item : string * value) : string * value :=
  if decide (item.1 = "token") then (item.1, VNone) else item.

(** ** Parser and namespace *)

(** The attribute of the namespace that holds the argument of an input. *)
Definition attribute (name : string) : string :=
  replace "-" "_" (lstrip "-" name).

(** The action that the loop of [add_argument] calls registers for an
    [ArgSpec]. *)
Definition store_action (environ : environment) (prefix : string)
    (arg_spec : ArgSpec.t) : argparse.Action :=
  argparse.StoreAction
    ["--" +:+ ArgSpec.name arg_spec]
    (attribute (ArgSpec.name arg_spec))
    (get_env environ
       [ upper (replace " " "" prefix) +:+ "_" +:+ upper (ArgSpec.name arg_spec);
         "INPUT_" +:+ upper (ArgSpec.name arg_spec) ]
       (ArgSpec.default arg_spec))
    (ArgSpec.help arg_spec).

(** The attribute an option of the command line sets. *)
Definition option_dest (parser : argparse.ArgumentParser) (flag : string)
    : option string :=
  match argparse.find_action parser flag with
  | Some (argparse.StoreAction _ dest _ _) => Some dest
  | _ => None
  end.

Definition apply_option (parser : argparse.ArgumentParser)
    (namespace : Namespace) (opt : string * string) : Namespace :=
  match option_dest parser opt.1 with
  | Some dest => dict_set dest (VStr opt.2) namespace
  | None => namespace
  end.

(** The argument the command line gives for a flag: the last one. *)
Fixpoint cli_value (flag : string) (argv : list (string * string))
    : option string :=
  match argv with
  | [] => None
  | (flag', arg) :: argv' =>
      match cli_value flag argv' with
      | Some later => Some later
      | None => if decide (flag' = flag) then Some arg else None
      end
  end.

(** The default of the first [store] action of an attribute. *)
Fixpoint first_default (dest : string) (actions : list argparse.Action)
    : option value :=
  match actions with
  | [] => None
  | argparse.HelpAction _ :: actions' => first_default dest actions'
  | argparse.StoreAction _ dest' default _ :: actions' =>
      if decide (dest' = dest) then Some default
      else first_default dest actions'
  end.

(** The default an input gets from its entry of the manifest. *)
Definition manifest_default (environ : environment) (input_dict : dict value)
    : value :=
  match dict_get "default" input_dict with
  | Some (VStr s) => VStr (expandvars environ s)
  | Some v => v
  | None => VNone
  end.

Definition read_input (environ : environment)
    (entry : string * dict value) : ArgSpec.t :=
  ArgSpec.Build entry.1 (manifest_default environ entry.2)
    (get_or "help" VNone entry.2)
    (get_or "required" (VBool false) entry.2).

(** An input is flagged when it is required and its name is no attribute of
    the namespace. *)
Definition flagged (args : Namespace) (a : ArgSpec.t) : bool :=
  truthy (ArgSpec.required a) && negb (dict_contains (ArgSpec.name a) args).

Definition missing_record (a : ArgSpec.t) : event :=
  Log ERROR ("Missing required argument " +:+ ArgSpec.name a).

(** ** Resolution precedence *)

(** The two names under which an input is looked up in the environment. *)
Definition tool_variable (prefix name : string) : string :=
  upper (replace " " "" prefix) +:+ "_" +:+ upper name.

Definition generic_variable (name : string) : string :=
  "INPUT_" +:+ upper name.




(** ** Example runs *)

(** A manifest with a user name, a token whose default refers to the
    environment, and a required key whose name has a dash. *)
Definition example_inputs : dict (dict value) :=
  [ ("user", [("description", VStr "User name."); ("required", VBool false)]);
    ("token", [("description", VStr "API Key for the User.");
               ("required", VBool false);
               ("default", VStr "${GHE_TOKEN}")]);
    ("api-key", [("required", VBool true)]) ].

Definition example_world : World :=
  BuildWorld
    {[ "GHE_TOKEN" := "s3cr3t"; "FOOBAR_USER" := ""; "INPUT_USER" := "alice" ]}
    {[ "action.yaml" := example_inputs ]}
    [("--api-key", "k1"); ("--api-key", "k2")].

Definition example_outputs (args : dict value) : dict value :=
  [("foo", VStr "bar"); ("count", VInt 2)].

Definition example_spec : ActionSpec.t :=
  ActionSpec.new "action.yaml" "foo" (Some "foo bar") (Some "fubar")
    (Some "foo bar") None (Some example_outputs).

Definition example_args : Namespace :=
  [("user", VStr "alice"); ("token", VStr "s3cr3t"); ("api_key", VStr "k2")].

(** Two inputs with one attribute: [a-b] and [a_b]. *)
Definition shared_inputs : dict (dict value) :=
  [ ("a-b", [("default", VStr "1")]); ("a_b", [("default", VStr "2")]) ].

Definition shared_world : World :=
  BuildWorld ∅ {[ "action.yaml" := shared_inputs ]} [].

Definition shared_spec : ActionSpec.t :=
  ActionSpec.new "action.yaml" "tool" None None None None None.

(** A manifest with one required input, and nothing that gives it a value:
    no flag, no variable, no default. *)
Definition required_inputs : dict (dict value) :=
  [ ("user", [("description", VStr "User name."); ("required", VBool true)]) ].

Definition required_world : World :=
  BuildWorld ∅ {[ "action.yaml" := required_inputs ]} [].

Definition required_spec : ActionSpec.t :=
  ActionSpec.new "action.yaml" "foo" None None None None None.

(** The same, with a [do_action]. *)
Definition plain_spec : ActionSpec.t :=
  ActionSpec.new "action.yaml" "foo" None None None None (Some example_outputs).

(** ** The trace of [action_main] *)

(** The arguments after the optional call of [set_defaults], and the event
    of that call. *)
Definition defaulted (action_spec : ActionSpec.t) (args : dict value)
    : dict value :=
  match ActionSpec.set_defaults action_spec with
  | Some set_defaults => set_defaults args
  | None => args
  end.

Definition set_defaults_call (action_spec : ActionSpec.t) (args : dict value)
    : list event :=
  match ActionSpec.set_defaults action_spec with
  | Some _ => [CallSetDefaults args]
  | None => []
  end.

(** The two forms of an output line. *)
Definition prefixed_line (item : string * value) : string :=
  "::set-output name=" +:+ item.1 +:+ "::" +:+ py_str item.2.

Definition unprefixed_line (item : string * value) : string :=
  "set-output name=" +:+ item.1 +:+ "::" +:+ py_str item.2.

(** What [action_main] does up to the test of [missing_args]. *)
Definition preamble (action_spec : ActionSpec.t) (args : dict value)
    : list event :=
  set_defaults_call action_spec args
  ++ Log INFO (str_of (ActionSpec.long_name action_spec)
               +:+ ", with arguments:")
  :: (argument_record <$> sorted_items (defaulted action_spec args)).

(** ** Attributes shared by several inputs *)




(** An input that the check of the required arguments reports: it is
    required and its name is not its own attribute. *)
Definition reported (entry : string * dict value) : Prop :=
  truthy (get_or "required" (VBool false) entry.2) = true
  ∧ attribute entry.1 ≠ entry.1.

#[global] Instance reported_dec entry : Decision (reported entry).
Proof. unfold reported. apply _. Defined.

(** ** Further example runs *)


(** A manifest with an input named [help]. *)
Definition help_inputs : dict (dict value) :=
  [ ("user", []); ("help", [("default", VStr "me")]) ].

Definition help_world : World :=
  BuildWorld ∅ {[ "action.yaml" := help_inputs ]} [].


Definition upper_case_user (args : dict value) : dict value :=
  [("user", VStr (upper (py_str (get_or "user" VNone args))))].

Definition echo_user (args : dict value) : dict value :=
  [("greeting", get_or "user" VNone args)].

Definition echo_spec : ActionSpec.t :=
  ActionSpec.new "action.yaml" "foo" None None None
    (Some upper_case_user) (Some echo_user).

Definition echo_world : World :=
  BuildWorld ∅ {[ "action.yaml" := required_inputs ]} [("--user", "alice")].

(** A manifest whose default has no reference. *)
Definition plain_default_inputs : dict (dict value) :=
  [ ("branch", [("default", VStr "main")]) ].


(** ** Upper case and spaces, written out *)

(** The strings on which [upper] is [str.upper]: every character is an
    ASCII one. *)
Definition ascii_only (s : string) : Prop :=
  Forall (λ c, (N_of_ascii c < 128)%N) (list_ascii_of_string s).

#[global] Instance ascii_only_dec s : Decision (ascii_only s).
Proof. unfold ascii_only. apply _. Defined.






(** ** References to the environment in a text *)

(** The characters of a variable name: letters, digits and the underscore. *)
Definition name_chars : list ascii :=
  list_ascii_of_string
    "abcdefghijklmnopqrstuvwxyzABCDEFGHIJKLMNOPQRSTUVWXYZ0123456789_".

Definition name_char (c : ascii) : Prop := c ∈ name_chars.

Definition starts_with_name_char (s : string) : Prop :=
  match s with
  | "" => False
  | String c _ => name_char c
  end.

(** [expanded environ text text'] says that [text'] is [text] with its
    references expanded, from left to right. A reference is a dollar sign
    followed by a name in braces (everything up to the first closing brace)
    or by the longest run of name characters. A reference to a variable of
    the environment becomes the value of the variable; a reference to
    another name stays as it is; a dollar sign followed by neither a name
    character nor an opening brace stays as well; a value that was put in
    is not read again. A text in which the scan meets a [${] that no brace
    closes has no expansion here. *)
Inductive expanded (environ : environment) : string → string → Prop :=
  | expanded_empty :
      expanded environ "" ""
  | expanded_char c rest rest' :
      c ≠ "$"%char →
      expanded environ rest rest' →
      expanded environ (String c rest) (String c rest')
  | expanded_braced name rest rest' :
      (∀ c, c ∈ list_ascii_of_string name → c ≠ "}"%char) →
      expanded environ rest rest' →
      expanded environ
        ("${" +:+ name +:+ "}" +:+ rest)
        (from_option id ("${" +:+ name +:+ "}") (environ !! name) +:+ rest')
  | expanded_plain name rest rest' :
      name ≠ "" →
      (∀ c, c ∈ list_ascii_of_string name → name_char c) →
      ¬ starts_with_name_char rest →
      expanded environ rest rest' →
      expanded environ
        ("$" +:+ name +:+ rest)
        (from_option id ("$" +:+ name) (environ !! name) +:+ rest')
  | expanded_dollar rest rest' :
      ¬ starts_with_name_char rest →
      String.prefix "{" rest = false →
      expanded environ rest rest' →
      expanded environ (String "$" rest) (String "$" rest').

(** Every [${] of the text has a closing brace somewhere after it. *)
Fixpoint braces_closed (text : string) : bool :=
  match text with
  | "" => true
  | String c rest =>
      (if Ascii.eqb c "$" && String.prefix "{" rest
       then bool_decide ("}"%char ∈ list_ascii_of_string rest)
       else true)
      && braces_closed rest
  end.

(** ** Options that [argparse] cannot match *)



(** A word that [argparse] takes for an option and matches with none of
    the option strings, neither as it is written, nor as the beginning of
    one, nor before an equals sign: it starts with two dashes, holds neither
    a space nor an equals sign, and no option string starts with it. *)
Definition unmatched_option (flags : list string) (word : string) : Prop :=
  String.prefix "--" word = true
  ∧ Forall (λ c, c ≠ " "%char ∧ c ≠ "="%char) (list_ascii_of_string word)
  ∧ Forall (λ flag, String.prefix word flag = false) flags.

#[global] Instance unmatched_option_dec flags word :
  Decision (unmatched_option flags word).
Proof. unfold unmatched_option. apply _. Defined.

(** * Properties *)

(** ** The runtime functions on examples *)

Example upper_example : upper "my tool-x_9z" = "MY TOOL-X_9Z".
Proof. reflexivity. Qed.

Example tool_variable_example :
  tool_variable "foo bar" "api-key" = "FOOBAR_API-KEY"
  ∧ generic_variable "api-key" = "INPUT_API-KEY".
Proof. split; reflexivity. Qed.

Example attribute_example :
  attribute "api-key" = "api_key" ∧ attribute "user" = "user"
  ∧ attribute "a_b" = attribute "a-b".
Proof. split_and!; reflexivity. Qed.

(** Bound references are replaced, with or without braces; an unbound one,
    and a brace that is not closed, stay; an inserted value is not expanded
    again. *)
Example expandvars_example :
  expandvars {[ "HOME" := "/root"; "A" := "$HOME" ]}
    "${HOME}/bin:$HOME-$NOPE/${NOPE}$A${A"
  = "/root/bin:/root-$NOPE/${NOPE}$HOME${A".
Proof. vm_compute. reflexivity. Qed.

Example get_env_example :
  get_env {[ "FOO_USER" := ""; "INPUT_USER" := "alice" ]}
    ["FOO_USER"; "INPUT_USER"] (VStr "nobody") = VStr "alice"
  ∧ get_env {[ "FOO_USER" := "" ]} ["FOO_USER"; "INPUT_USER"] VNone = VNone.
Proof. split; vm_compute; reflexivity. Qed.

Example sorted_items_example :
  sorted_items [("user", VNone); ("token", VStr "x"); ("api_key", VInt 1)]
  = [("api_key", VInt 1); ("token", VStr "x"); ("user", VNone)].
Proof. vm_compute. reflexivity. Qed.

(** ** The monad *)

Section monad.
Context {A B : Type}.
Implicit Types (m : M A) (f : A → M B).

Lemma bind_returned m f t a :
  m = (t, Returned a) → m ≫= f = (t ++ (f a).1, (f a).2).
Proof. by intros ->. Qed.

Lemma bind_exited m f t status :
  m = (t, Exited status) → m ≫= f = (t, Exited status).
Proof. by intros ->. Qed.

Lemma bind_raised m f t e :
  m = (t, Raised e) → m ≫= f = (t, Raised e).
Proof. by intros ->. Qed.

Lemma bind_returned_inv m f t b :
  m ≫= f = (t, Returned b) →
  ∃ t1 a t2, m = (t1, Returned a) ∧ f a = (t2, Returned b) ∧ t = t1 ++ t2.
Proof.
  destruct m as [t1 [a| |]]; unfold mbind, M_bind; simpl; [|done..].
  destruct (f a) as [t2 r] eqn:Hf; simpl. intros [= <- ->]. eauto 6.
Qed.

Lemma bind_raised_inv m f e :
  (m ≫= f).2 = Raised e →
  m.2 = Raised e ∨ ∃ a, m.2 = Returned a ∧ (f a).2 = Raised e.
Proof.
  destruct m as [t1 [a| |]]; unfold mbind, M_bind; simpl; intros Hf.
  - right. by exists a.
  - discriminate Hf.
  - left. congruence.
Qed.
End monad.

Lemma for_each_emit {A} (l : list A) (ev : A → event) :
  for_each l (λ x, emit (ev x)) = (ev <$> l, Returned tt).
Proof.
  induction l as [|x l IH]; [done|].
  simpl. unfold mbind, M_bind. simpl. by rewrite IH.
Qed.

(** ** Dictionaries *)

Lemma dict_get_set {A} (k k' : string) (v : A) (d : dict A) :
  dict_get k (dict_set k' v d) = if decide (k = k') then Some v else dict_get k d.
Proof.
  induction d as [|[k0 v0] d IH]; simpl.
  - by destruct (decide (k = k')).
  - destruct (decide (k' = k0)) as [->|Hne]; simpl.
    + by destruct (decide (k = k0)).
    + rewrite IH. destruct (decide (k = k0)) as [->|]; [|done].
      by rewrite decide_False.
Qed.

Lemma dict_get_Some_elem {A} (k : string) (v : A) (d : dict A) :
  dict_get k d = Some v → (k, v) ∈ d.
Proof.
  induction d as [|[k0 v0] d IH]; simpl; [done|].
  destruct (decide (k = k0)) as [->|]; [intros [= ->]; left|right; auto].
Qed.

Lemma dict_get_None {A} (k : string) (d : dict A) :
  dict_get k d = None ↔ k ∉ keys d.
Proof.
  unfold keys. induction d as [|[k0 v0] d IH]; simpl.
  - split; [intros _; apply not_elem_of_nil|done].
  - rewrite not_elem_of_cons. destruct (decide (k = k0)) as [->|Hne].
    + split; [done|]. by intros [? _].
    + rewrite IH. split; [done|]. by intros [_ ?].
Qed.

Lemma elem_dict_get {A} (k : string) (v : A) (d : dict A) :
  NoDup (keys d) → (k, v) ∈ d → dict_get k d = Some v.
Proof.
  unfold keys. induction d as [|[k0 v0] d IH]; simpl.
  - intros _ ?%elem_of_nil. done.
  - intros [Hk0 Hd]%NoDup_cons [[= -> ->]|Hin]%elem_of_cons.
    + by rewrite decide_True.
    + rewrite decide_False; [auto|]. intros ->. apply Hk0.
      apply list_elem_of_fmap. by exists (k0, v).
Qed.

Lemma dict_contains_true {A} (k : string) (d : dict A) :
  dict_contains k d = true ↔ k ∈ keys d.
Proof.
  unfold dict_contains. rewrite bool_decide_eq_true.
  rewrite <- not_eq_None_Some, dict_get_None.
  destruct (decide (k ∈ keys d)); naive_solver.
Qed.

(** ** [get_env] *)

Lemma get_env_cons environ n envar_list default :
  get_env environ (n :: envar_list) default =
  match set_nonempty environ n with
  | Some s => VStr s
  | None => get_env environ envar_list default
  end.
Proof.
  simpl. unfold getenv, set_nonempty.
  destruct (environ !! n) as [s|]; simpl; [|done].
  by destruct (String.eqb s "").
Qed.

(** C8: [get_env] returns the value of the first name of the list that the
    environment binds to a non-empty string, and the default when there is
    none; a name bound to the empty string counts exactly as an unset one
    (removing such bindings from the environment changes nothing); so the
    empty string is returned only when it is the default. *)
Theorem get_env_first_nonempty (environ : environment)
    (envar_list : list string) (default : value) :
  get_env environ envar_list default
    = from_option VStr default (head (omap (set_nonempty environ) envar_list))
  ∧ get_env environ envar_list default
    = get_env (filter (λ kv, kv.2 ≠ "") environ) envar_list default
  ∧ (get_env environ envar_list default = VStr "" → default = VStr "").
Proof.
  induction envar_list as [|n l (IH1 & IH2 & IH3)]; [done|].
  rewrite !get_env_cons. cbn [omap list_omap].
  assert (set_nonempty (filter (λ kv, kv.2 ≠ "") environ) n
          = set_nonempty environ n) as ->.
  { unfold set_nonempty. rewrite map_lookup_filter.
    destruct (environ !! n) as [s|]; simpl; [|done].
    destruct (String.eqb_spec s "") as [->|Hs].
    - by rewrite option_guard_False by (simpl; congruence).
    - rewrite option_guard_True by done. simpl.
      by destruct (String.eqb_spec s ""). }
  unfold set_nonempty in *.
  destruct (environ !! n) as [s|]; simpl; [|done].
  destruct (String.eqb_spec s "") as [->|Hs]; simpl; [done|].
  split_and!; [done..|]. intros [= ->]. done.
Qed.

(** ** [ActionSpec]: the fields normalised by [__post_init__] *)

Lemma or_given x y :
  ActionSpec.or x y = if given x then from_option id y x else y.
Proof. destruct x as [s|]; simpl; [|done]. by destruct (String.eqb s ""). Qed.

Lemma or_idempotent x y :
  ActionSpec.or (Some (ActionSpec.or x y)) y = ActionSpec.or x y.
Proof.
  destruct x as [s|]; simpl.
  - destruct (String.eqb s "") eqn:E; simpl.
    + by destruct (String.eqb y "").
    + by rewrite E.
  - by destruct (String.eqb y "").
Qed.

Lemma post_init_idempotent (s : ActionSpec.t) :
  ActionSpec.__post_init__ (ActionSpec.__post_init__ s)
  = ActionSpec.__post_init__ s.
Proof.
  destruct s as [fn n ln d p sd da]. unfold ActionSpec.__post_init__.
  cbn [ActionSpec.filename ActionSpec.name ActionSpec.long_name
       ActionSpec.description ActionSpec.env_prefix ActionSpec.set_defaults
       ActionSpec.do_action].
  by rewrite !or_idempotent.
Qed.

(** ** The log of the arguments *)

Lemma log_argument_emit item : log_argument item = emit (argument_record item).
Proof.
  destruct item as [arg val]. unfold log_argument, argument_record. simpl.
  by destruct (decide (arg = "token")) as [->|].
Qed.

Lemma log_arguments_trace args :
  log_arguments args = (argument_record <$> sorted_items args, Returned tt).
Proof.
  unfold log_arguments. rewrite <- for_each_emit.
  induction (sorted_items args) as [|x l IH]; [done|].
  simpl. by rewrite log_argument_emit, IH.
Qed.

Lemma redact_fst item : (redact item).1 = item.1.
Proof. unfold redact. by destruct (decide _). Qed.

Lemma argument_record_redact item :
  argument_record (redact item) = argument_record item.
Proof.
  unfold argument_record. rewrite redact_fst. unfold redact.
  by destruct (decide (item.1 = "token")).
Qed.

Lemma elem_of_redact (args : dict value) (x : string * value) :
  NoDup (keys args) →
  x ∈ redact <$> args ↔
    (x.1 = "token" ∧ x.2 = VNone ∧ "token" ∈ keys args)
    ∨ (x.1 ≠ "token" ∧ dict_get x.1 args = Some x.2).
Proof.
  intros Hnd. rewrite list_elem_of_fmap. split.
  - intros ([k v] & -> & Hin). unfold redact. simpl.
    destruct (decide (k = "token")) as [->|Hk]; simpl.
    + left. split_and!; [done..|]. unfold keys.
      apply list_elem_of_fmap. by exists ("token", v).
    + right. split; [done|]. by apply elem_dict_get.
  - destruct x as [k v]. simpl. intros [(-> & -> & Hin)|[Hk Hget]].
    + unfold keys in Hin. apply list_elem_of_fmap in Hin as ([k v] & Hk & Hin).
      simpl in Hk. subst k. exists ("token", v). split; [|done].
      unfold redact. by case_decide.
    + exists (k, v). split; [|by apply dict_get_Some_elem].
      unfold redact. by case_decide.
Qed.

Lemma redact_sorted_items (args : dict value) :
  StronglySorted key_le (redact <$> sorted_items args).
Proof.
  apply (StronglySorted_fmap _ key_le key_le).
  - intros x y. unfold key_le. by rewrite !redact_fst.
  - apply StronglySorted_merge_sort; apply _.
Qed.

(** C6: the records logged by the loop over the arguments do not depend on
    the value of [token]: two dictionaries of arguments that agree on every
    other key, and bind [token] or not alike, give the same log. *)
Theorem token_masked_in_log (args1 args2 : dict value) :
  NoDup (keys args1) → NoDup (keys args2) →
  ("token" ∈ keys args1 ↔ "token" ∈ keys args2) →
  (∀ k, k ≠ "token" → dict_get k args1 = dict_get k args2) →
  log_arguments args1 = log_arguments args2.
Proof.
  intros Hnd1 Hnd2 Htok Hsame. rewrite !log_arguments_trace. f_equal.
  rewrite <- (list_fmap_ext (argument_record ∘ redact) argument_record
                (sorted_items args1) (λ _ x _, argument_record_redact x)).
  rewrite <- (list_fmap_ext (argument_record ∘ redact) argument_record
                (sorted_items args2) (λ _ x _, argument_record_redact x)).
  rewrite !list_fmap_compose. f_equal.
  assert (Hperm : redact <$> args1 ≡ₚ redact <$> args2).
  { apply NoDup_Permutation.
    - apply (NoDup_fmap_1 fst). rewrite <- list_fmap_compose.
      by rewrite (list_fmap_ext (fst ∘ redact) fst args1 (λ _ x _, redact_fst x)).
    - apply (NoDup_fmap_1 fst). rewrite <- list_fmap_compose.
      by rewrite (list_fmap_ext (fst ∘ redact) fst args2 (λ _ x _, redact_fst x)).
    - intros x. rewrite !elem_of_redact by done.
      destruct (decide (x.1 = "token")) as [Hx|Hx].
      + rewrite Htok. tauto.
      + rewrite (Hsame _ Hx). tauto. }
  apply (StronglySorted_unique_strong key_le); [|apply redact_sorted_items..|].
  - intros x1 x2 Hx1 Hx2 H12 H21.
    assert (Hk : x1.1 = x2.1) by (by apply (anti_symm String.le)).
    unfold sorted_items in Hx1, Hx2.
    rewrite merge_sort_Permutation in Hx1, Hx2. rewrite <- Hperm in Hx2.
    apply list_elem_of_fmap in Hx1 as (y1 & -> & Hy1).
    apply list_elem_of_fmap in Hx2 as (y2 & -> & Hy2).
    rewrite !redact_fst in Hk.
    assert (y1 = y2) as ->; [|done].
    destruct y1 as [k v1], y2 as [k' v2]. simpl in Hk. subst k'.
    apply (elem_dict_get _ _ _ Hnd1) in Hy1, Hy2. congruence.
  - unfold sorted_items. by rewrite !merge_sort_Permutation.
Qed.

(** Two dictionaries in different orders, with different tokens. *)
Lemma token_masked_in_log_witness :
  log_arguments [("user", VStr "alice"); ("token", VStr "s3cr3t")]
  = log_arguments [("token", VStr "hunter2"); ("user", VStr "alice")].
Proof.
  apply token_masked_in_log.
  - unfold keys. simpl. compute_done.
  - unfold keys. simpl. compute_done.
  - unfold keys. simpl. split; intros _.
    + apply list_elem_of_here.
    + apply list_elem_of_further, list_elem_of_here.
  - intros k Hk. simpl. repeat case_decide; congruence.
Defined.

(** ** The parser built by [parse_arguments] *)

Lemma add_argument_returned parser flag default help t parser' :
  argparse.add_argument parser flag default help = (t, Returned parser') →
  t = []
  ∧ lstrip "-" flag ≠ ""
  ∧ (flag ∉ (argparse.actions parser ≫= argparse.option_strings))
  ∧ parser' = argparse.BuildParser (argparse.description parser)
      (argparse.actions parser
       ++ [argparse.StoreAction [flag] (replace "-" "_" (lstrip "-" flag))
             default help]).
Proof.
  unfold argparse.add_argument.
  destruct (decide (lstrip "-" flag = "")); [done|].
  destruct (decide (flag ∈ _)); [done|].
  by intros [= <- <-].
Qed.

Lemma add_arguments_returned environ prefix arguments parser t parser' :
  add_arguments environ (Some prefix) arguments parser = (t, Returned parser') →
  t = []
  ∧ argparse.description parser' = argparse.description parser
  ∧ argparse.actions parser'
    = argparse.actions parser ++ (store_action environ prefix <$> arguments)
  ∧ NoDup (ArgSpec.name <$> arguments)
  ∧ Forall (λ a, "--" +:+ ArgSpec.name a
                 ∉ (argparse.actions parser ≫= argparse.option_strings))
      arguments.
Proof.
  revert parser t. induction arguments as [|a l IH]; intros parser t.
  - intros [= <- <-]. rewrite app_nil_r. split_and!; [done..|constructor|done].
  - cbn [add_arguments attr_str]. intros H.
    apply bind_returned_inv in H as (t1 & prefix' & t2 & [= <- <-] & H & ->).
    apply bind_returned_inv in H as (t1 & p1 & t3 & Hadd & H & ->).
    apply add_argument_returned in Hadd as (-> & Hdest & Hfresh & ->).
    apply IH in H as (-> & Hdesc & Hact & Hnd & Hall). cbn in Hdesc, Hact, Hall.
    split_and!; [done..| | |].
    + rewrite Hact, <- app_assoc. done.
    + cbn. apply NoDup_cons. split; [|done]. intros Hin.
      apply list_elem_of_fmap in Hin as (b & Hb & Hin).
      rewrite Forall_forall in Hall. apply (Hall _ Hin).
      rewrite bind_app. apply elem_of_app. right. cbn. rewrite Hb. left.
    + constructor; [done|]. eapply Forall_impl; [exact Hall|].
      intros b Hb Hin. apply Hb. rewrite bind_app. apply elem_of_app. by left.
Qed.

(** ** The namespace built by [parse_args] *)

Lemma consume_returned parser argv namespace extras t namespace' :
  argparse.consume parser argv namespace extras = (t, Returned namespace') →
  t = [] ∧ extras = false
  ∧ namespace' = foldl (apply_option parser) namespace argv.
Proof.
  revert namespace extras. induction argv as [|[flag arg] argv IH];
    intros namespace extras; cbn [argparse.consume].
  - destruct extras; [done|]. by intros [= <- <-].
  - cbn [foldl]. unfold apply_option at 2. unfold option_dest. cbn [fst snd].
    destruct (argparse.find_action parser flag) as [[os|os dest d h]|].
    + done.
    + apply IH.
    + intros H. by apply IH in H as (_ & [=] & _).
Qed.


Lemma dict_get_add_defaults dest actions :
  dict_get dest (argparse.add_defaults actions) = first_default dest actions.
Proof.
  unfold argparse.add_defaults.
  enough (∀ namespace,
    dict_get dest (foldl (λ namespace a,
       match a with
       | argparse.HelpAction _ => namespace
       | argparse.StoreAction _ dest default _ =>
           if dict_contains dest namespace then namespace
           else dict_set dest default namespace
       end) namespace actions)
    = match dict_get dest namespace with
      | Some v => Some v
      | None => first_default dest actions
      end) as H by apply (H []).
  induction actions as [|[os|os dest' d h] actions IH]; intros namespace.
  - cbn. by destruct (dict_get dest namespace).
  - cbn [foldl first_default]. apply IH.
  - cbn [foldl first_default]. rewrite IH. clear IH.
    unfold dict_contains. destruct (dict_get dest' namespace) as [v'|] eqn:Hget.
    + rewrite bool_decide_eq_true_2 by eauto.
      destruct (dict_get dest namespace) as [v|] eqn:Hget'; [done|].
      rewrite decide_False; [done|]. congruence.
    + rewrite bool_decide_eq_false_2 by (by intros [? ?]).
      rewrite dict_get_set.
      destruct (decide (dest = dest')) as [->|Hne].
      * by rewrite Hget, decide_True.
      * destruct (dict_get dest namespace); [done|].
        rewrite decide_False; [done|]. congruence.
Qed.

(** *** The parsers [parse_arguments] builds *)

Section built_parser.
Variables (environ : environment) (prefix : string).
Variable arguments : list ArgSpec.t.
Variable parser : argparse.ArgumentParser.

Hypothesis parser_actions :
  argparse.actions parser
  = argparse.HelpAction ["-h"; "--help"]
      :: (store_action environ prefix <$> arguments).
Hypothesis names_distinct : NoDup (ArgSpec.name <$> arguments).
Hypothesis names_not_help :
  Forall (λ a, "--" +:+ ArgSpec.name a ∉ ["-h"; "--help"]) arguments.






(** Every input has its attribute in the namespace, whatever the command
    line holds. *)
Lemma attribute_in_namespace a argv :
  a ∈ arguments →
  attribute (ArgSpec.name a)
  ∈ keys (foldl (apply_option parser)
            (argparse.add_defaults (argparse.actions parser)) argv).
Proof using parser_actions.
  intros Ha.
  assert (Hdef : attribute (ArgSpec.name a)
                 ∈ keys (argparse.add_defaults (argparse.actions parser))).
  { destruct (decide (attribute (ArgSpec.name a)
                      ∈ keys (argparse.add_defaults (argparse.actions parser))))
      as [|Hnot]; [done|].
    apply dict_get_None in Hnot. rewrite dict_get_add_defaults in Hnot.
    rewrite parser_actions in Hnot. cbn [first_default] in Hnot.
    clear parser_actions names_distinct names_not_help. exfalso.
    induction arguments as [|c l IH]; [by apply elem_of_nil in Ha|].
    cbn [fmap list_fmap store_action first_default] in Hnot.
    destruct (decide (attribute (ArgSpec.name c) = attribute (ArgSpec.name a)));
      [done|].
    apply elem_of_cons in Ha as [->|Ha]; [done|]. by apply IH. }
  revert Hdef. generalize (argparse.add_defaults (argparse.actions parser)).
  induction argv as [|opt argv IH]; intros namespace Hin; [done|].
  cbn [foldl]. apply IH. unfold apply_option.
  destruct (option_dest parser opt.1) as [dest|]; [|done].
  destruct (decide (attribute (ArgSpec.name a) ∈ keys (dict_set dest (VStr opt.2) namespace)))
    as [|Hnot]; [done|].
  apply dict_get_None in Hnot. rewrite dict_get_set in Hnot.
  destruct (decide (attribute (ArgSpec.name a) = dest)); [done|].
  by apply dict_get_None in Hnot.
Qed.
End built_parser.

(** ** [parse_arguments], step by step *)

Lemma read_inputs_fmap environ inputs :
  read_inputs environ inputs = read_input environ <$> inputs.
Proof.
  unfold read_inputs. apply list_fmap_ext. intros _ [input input_dict] _.
  unfold read_input, manifest_default, get_or. cbn [fst snd]. f_equal.
  destruct (dict_get "default" input_dict) as [[]|]; done.
Qed.

Lemma check_required_trace args arguments missing_args :
  check_required args arguments missing_args
  = (missing_record <$> filter (λ a, flagged args a = true) arguments,
     Returned (missing_args || existsb (flagged args) arguments)).
Proof.
  revert missing_args. induction arguments as [|a l IH]; intros missing_args.
  - cbn. by rewrite orb_false_r.
  - cbn [check_required existsb]. fold (flagged args a).
    destruct (flagged args a) eqn:Hf.
    + rewrite filter_cons_True by done.
      rewrite (bind_returned _ _ [missing_record a] tt) by done.
      rewrite IH. cbn. by rewrite orb_true_r.
    + rewrite filter_cons_False by congruence. rewrite IH. done.
Qed.

Lemma add_arguments_trace environ env_prefix arguments parser t parser' :
  add_arguments environ env_prefix arguments parser = (t, Returned parser') →
  t = [].
Proof.
  destruct env_prefix as [prefix|].
  - by intros (-> & _)%add_arguments_returned.
  - destruct arguments; cbn; [by intros [= <- _]|done].
Qed.

Lemma parse_arguments_inv w action_spec t args missing_args :
  parse_arguments w action_spec = (t, Returned (args, missing_args)) →
  ∃ inputs parser,
    files w !! ActionSpec.filename action_spec = Some inputs
    ∧ add_arguments (environ w) (ActionSpec.env_prefix action_spec)
        (read_inputs (environ w) inputs)
        (argparse.new (ActionSpec.description action_spec))
      = ([], Returned parser)
    ∧ argparse.parse_args parser (argv w) = ([], Returned args)
    ∧ args = foldl (apply_option parser)
               (argparse.add_defaults (argparse.actions parser)) (argv w)
    ∧ check_required args (read_inputs (environ w) inputs) false
      = (t, Returned missing_args).
Proof.
  unfold parse_arguments, open_manifest. intros H.
  apply bind_returned_inv in H as (t1 & inputs & t2 & Hopen & H & ->).
  destruct (files w !! ActionSpec.filename action_spec) as [inputs'|];
    [|done]. injection Hopen as <- <-.
  apply bind_returned_inv in H as (t1 & parser & t3 & Hadd & H & ->).
  assert (t1 = []) as -> by by eapply add_arguments_trace.
  apply bind_returned_inv in H as (t1 & args' & t4 & Hparse & H & ->).
  destruct (consume_returned _ _ _ _ _ _ Hparse) as (-> & _ & Hargs).
  apply bind_returned_inv in H as (t1 & m & t5 & Hcheck & [= <- <- <-] & ->).
  exists inputs', parser. rewrite app_nil_r. done.
Qed.

(** What [parse_arguments] logs are the records of the flagged inputs. *)
Lemma parse_arguments_trace w action_spec t args missing_args :
  parse_arguments w action_spec = (t, Returned (args, missing_args)) →
  stdout t = [] ∧ ∀ e, e ∈ t → ∃ message, e = Log ERROR message.
Proof.
  intros (inputs & parser & _ & _ & _ & _ & Hcheck)%parse_arguments_inv.
  rewrite check_required_trace in Hcheck. injection Hcheck as <- _.
  split.
  - induction (filter _ _) as [|a l IH]; [done|]. exact IH.
  - intros e (a & -> & _)%list_elem_of_fmap. by eexists.
Qed.

(** With the prefix of the [ActionSpec] at hand, the parser is the help
    action followed by one [store] action per input. *)
Lemma parse_arguments_parser w action_spec prefix t args missing_args :
  ActionSpec.env_prefix action_spec = Some prefix →
  parse_arguments w action_spec = (t, Returned (args, missing_args)) →
  ∃ inputs parser,
    files w !! ActionSpec.filename action_spec = Some inputs
    ∧ argparse.actions parser
      = argparse.HelpAction ["-h"; "--help"]
          :: (store_action (environ w) prefix <$> read_inputs (environ w) inputs)
    ∧ NoDup (ArgSpec.name <$> read_inputs (environ w) inputs)
    ∧ Forall (λ a, "--" +:+ ArgSpec.name a ∉ ["-h"; "--help"])
        (read_inputs (environ w) inputs)
    ∧ args = foldl (apply_option parser)
               (argparse.add_defaults (argparse.actions parser)) (argv w)
    ∧ check_required args (read_inputs (environ w) inputs) false
      = (t, Returned missing_args).
Proof.
  intros Hp (inputs & parser & Hf & Hadd & _ & Hargs & Hc)%parse_arguments_inv.
  rewrite Hp in Hadd.
  apply add_arguments_returned in Hadd as (_ & _ & Hact & Hnd & Hall).
  exists inputs, parser. split_and!; done.
Qed.

(** ** Resolution precedence *)



Lemma example_parse_arguments :
  parse_arguments example_world example_spec
  = ([Log ERROR "Missing required argument api-key"],
     Returned (example_args, true)).
Proof. vm_compute. reflexivity. Qed.


Lemma shared_parse_arguments :
  parse_arguments shared_world shared_spec
  = ([], Returned ([("a_b", VStr "1")], false)).
Proof. vm_compute. reflexivity. Qed.


(** ** The environment variables of an input *)

Lemma built_action_lookup environ prefix arguments parser i a :
  argparse.actions parser
  = argparse.HelpAction ["-h"; "--help"]
      :: (store_action environ prefix <$> arguments) →
  arguments !! i = Some a →
  argparse.actions parser !! S i = Some (store_action environ prefix a).
Proof.
  intros -> Ha. rewrite lookup_cons. cbn beta iota.
  by rewrite list_lookup_fmap, Ha.
Qed.

(** ** Defaults of the manifest *)

Lemma expandvars_scan_drop environ copy drop path :
  String.length path ≤ drop → expandvars_scan environ copy drop path = "".
Proof.
  revert drop. induction path as [|c path IH]; intros drop; [done|].
  cbn [String.length expandvars_scan]. destruct drop as [|drop]; [lia|].
  intros ?. apply IH. lia.
Qed.

Lemma brace_body_app name rest :
  (∀ c, c ∈ list_ascii_of_string name → c ≠ "}"%char) →
  brace_body (name +:+ String "}" rest) = Some name.
Proof.
  induction name as [|c name IH]; intros Hname.
  - done.
  - change (brace_body (String c (name +:+ String "}" rest))
            = Some (String c name)).
    cbn [brace_body]. destruct (Ascii.eqb_spec c "}") as [->|_].
    + by destruct (Hname "}"%char (list_elem_of_here _ _)).
    + rewrite IH; [done|]. intros c' Hc'. apply Hname. by right.
Qed.

Lemma length_app_string (s1 s2 : string) :
  String.length (s1 +:+ s2) = String.length s1 + String.length s2.
Proof.
  induction s1 as [|c s1 IH]; [done|].
  change (S (String.length (s1 +:+ s2))
          = S (String.length s1) + String.length s2).
  by rewrite IH.
Qed.

Lemma app_empty_r (s : string) : s +:+ "" = s.
Proof.
  induction s as [|c s IH]; [done|].
  change (String c (s +:+ "") = String c s). by rewrite IH.
Qed.

Lemma expandvars_scan_reference environ rest name n value :
  match_var rest = Some (name, n) →
  environ !! name = Some value →
  expandvars_scan environ 0 0 (String "$" rest)
  = value +:+ expandvars_scan environ 0 n rest.
Proof. intros Hm Hl. cbn [expandvars_scan]. by rewrite Hm, Hl. Qed.

(** A default that is one braced reference to a variable of the environment
    becomes the value of that variable. *)
Lemma expandvars_braced environ name value :
  (∀ c, c ∈ list_ascii_of_string name → c ≠ "}"%char) →
  environ !! name = Some value →
  expandvars environ ("${" +:+ name +:+ "}") = value.
Proof.
  intros Hname Hlookup. unfold expandvars.
  change ("${" +:+ name +:+ "}")
    with (String "$" (String "{" (name +:+ String "}" ""))).
  rewrite (expandvars_scan_reference _ _ name (2 + String.length name) value).
  - rewrite expandvars_scan_drop; [apply app_empty_r|].
    cbn [String.length]. rewrite length_app_string. cbn. lia.
  - cbn [match_var]. by rewrite brace_body_app.
  - done.
Qed.

Example expandvars_GHE_TOKEN :
  expandvars {[ "GHE_TOKEN" := "s3cr3t" ]} "${GHE_TOKEN}" = "s3cr3t".
Proof. vm_compute. reflexivity. Qed.

(** ** The required arguments *)

(** C2 (the code at the failing input): the manifest declares [user] with
    [required: true], nothing gives it a value, and [parse_arguments]
    returns a namespace that binds [user] to [None], logs nothing and
    returns the flag [False]. *)
Theorem required_unresolved_not_flagged :
  (dict_get "user" required_inputs ≫= dict_get "required") = Some (VBool true)
  ∧ cli_value "--user" (argv required_world) = None
  ∧ get_env (environ required_world) ["FOO_USER"; "INPUT_USER"] VNone = VNone
  ∧ parse_arguments required_world required_spec
    = ([], Returned ([("user", VNone)], false)).
Proof. split_and!; vm_compute; reflexivity. Qed.

(** The same check flags a required input whose name has a dash although
    it has a value: in the example, [api-key] is given on the command line
    and is logged as missing. *)
Lemma required_resolved_flagged :
  dict_get "api_key" example_args = Some (VStr "k2")
  ∧ parse_arguments example_world example_spec
    = ([Log ERROR "Missing required argument api-key"],
       Returned (example_args, true)).
Proof. split; vm_compute; reflexivity. Qed.

Lemma none_flagged args (l : list ArgSpec.t) :
  Forall (λ a, flagged args a = false) l →
  missing_record <$> filter (λ a, flagged args a = true) l = []
  ∧ existsb (flagged args) l = false.
Proof.
  induction 1 as [|a l Ha Hl IH]; [done|].
  cbn [existsb]. rewrite Ha, filter_cons_False by congruence. exact IH.
Qed.

(** The check tests the presence of the attribute; the attribute of an
    input is always present, so an input whose name is its own attribute
    is never flagged. *)
Lemma missing_args_false_without_dash w action_spec prefix inputs t args
    missing_args :
  ActionSpec.env_prefix action_spec = Some prefix →
  files w !! ActionSpec.filename action_spec = Some inputs →
  parse_arguments w action_spec = (t, Returned (args, missing_args)) →
  (∀ input, input ∈ keys inputs → attribute input = input) →
  t = [] ∧ missing_args = false.
Proof.
  intros Hp Hfile Hret Hplain.
  destruct (parse_arguments_parser _ _ _ _ _ _ Hp Hret)
    as (inputs' & parser & Hfile' & Hact & _ & _ & Hargs & Hcheck).
  rewrite Hfile in Hfile'. injection Hfile' as <-.
  rewrite check_required_trace in Hcheck. cbn in Hcheck.
  assert (Hnone : Forall (λ a, flagged args a = false)
                    (read_inputs (environ w) inputs)).
  { apply Forall_forall. intros a Ha. unfold flagged.
    apply andb_false_intro2, negb_false_iff, dict_contains_true.
    pose proof (attribute_in_namespace _ _ _ _ Hact a (argv w) Ha) as Hin.
    rewrite <- Hargs in Hin. rewrite Hplain in Hin; [done|].
    rewrite read_inputs_fmap in Ha.
    apply list_elem_of_fmap in Ha as ([input d] & -> & Ha).
    unfold keys. by apply (list_elem_of_fmap_2 fst _ (input, d)). }
  injection Hcheck as <- <-. by apply none_flagged.
Qed.

(** ** [action_main] *)

Lemma for_each_print (outputs : dict value) (line : string → value → string) :
  for_each outputs (λ '(name, result), emit (Print (line name result)))
  = ((λ item, Print (line item.1 item.2)) <$> outputs, Returned tt).
Proof.
  induction outputs as [|[name result] outputs IH]; [done|].
  cbn [for_each]. rewrite IH. done.
Qed.

Lemma mret_bind {A B} (a : A) (f : A → M B) : mret a ≫= f = f a.
Proof. unfold mbind, M_bind, mret, M_ret. cbn. by destruct (f a). Qed.


Lemma emit_mret_bind {A B} (e : event) (a : A) (f : A → M B) :
  (emit e;; mret a) ≫= f = (e :: (f a).1, (f a).2).
Proof. reflexivity. Qed.

Lemma action_main_unfold w action_spec t args missing_args :
  parse_arguments w action_spec = (t, Returned (args, missing_args)) →
  action_main w action_spec
  = let args' := defaulted action_spec args in
    let pre := t ++ preamble action_spec args in
    if missing_args
    then (pre ++ [Log ERROR "Some required arguments are missing!"], Exited 1)
    else match ActionSpec.do_action action_spec with
         | Some do_action =>
             (pre ++ CallDoAction args'
                  :: (Print ∘ prefixed_line <$> do_action args')
                  ++ (Print ∘ unprefixed_line <$> do_action args'),
              Returned (do_action args'))
         | None => (pre, Returned [])
         end.
Proof.
  intros Hparse. unfold action_main.
  rewrite (bind_returned _ _ _ _ Hparse). cbn beta iota zeta.
  unfold preamble, defaulted, set_defaults_call.
  destruct (ActionSpec.set_defaults action_spec) as [set_defaults|];
    [rewrite emit_mret_bind|rewrite mret_bind];
    rewrite log_arguments_trace, ?for_each_print;
    destruct missing_args;
    destruct (ActionSpec.do_action action_spec) as [do_action|];
    rewrite ?for_each_print;
    unfold mbind, M_bind, mret, M_ret, emit, sys_exit; cbn [fst snd];
    rewrite ?app_nil_r, <- ?app_assoc; cbn [app];
    rewrite ?app_nil_r, <- ?app_assoc; reflexivity.
Qed.

Lemma stdout_app t1 t2 : stdout (t1 ++ t2) = stdout t1 ++ stdout t2.
Proof. apply omap_app. Qed.

Lemma stdout_prints {A} (line : A → string) (l : list A) :
  stdout (Print ∘ line <$> l) = line <$> l.
Proof. induction l as [|x l IH]; [done|]. cbn. by rewrite <- IH. Qed.

Lemma stdout_do_action_call args t :
  stdout (CallDoAction args :: t) = stdout t.
Proof. reflexivity. Qed.

Lemma stdout_argument_records items : stdout (argument_record <$> items) = [].
Proof.
  induction items as [|x l IH]; [done|]. cbn.
  unfold argument_record at 1. by destruct (decide _).
Qed.

Lemma stdout_preamble action_spec args : stdout (preamble action_spec args) = [].
Proof.
  unfold preamble, set_defaults_call. rewrite stdout_app.
  destruct (ActionSpec.set_defaults action_spec); cbn;
    apply stdout_argument_records.
Qed.

Lemma do_action_not_in_preamble action_spec args a :
  CallDoAction a ∉ preamble action_spec args.
Proof.
  unfold preamble, set_defaults_call. intros Hin.
  apply elem_of_app in Hin as [Hin|Hin].
  - destruct (ActionSpec.set_defaults action_spec).
    + by apply list_elem_of_singleton in Hin.
    + by apply elem_of_nil in Hin.
  - apply elem_of_cons in Hin as [Hin|Hin]; [done|].
    apply list_elem_of_fmap in Hin as (item & Hitem & _).
    unfold argument_record in Hitem. by destruct (decide _).
Qed.

(** C5: when no required argument is missing and the [ActionSpec] has a
    [do_action], [action_main] returns the mapping that [do_action] returns
    and prints, for its items in order, first every line
    [::set-output name=<name>::<result>] and then every line
    [set-output name=<name>::<result>]; it prints nothing else. *)
Theorem outputs_emitted_twice w action_spec do_action t args :
  parse_arguments w action_spec = (t, Returned (args, false)) →
  ActionSpec.do_action action_spec = Some do_action →
  (action_main w action_spec).2
    = Returned (do_action (defaulted action_spec args))
  ∧ stdout (action_main w action_spec).1
    = ((λ item, "::set-output name=" +:+ item.1 +:+ "::" +:+ py_str item.2)
         <$> do_action (defaulted action_spec args))
      ++ ((λ item, "set-output name=" +:+ item.1 +:+ "::" +:+ py_str item.2)
            <$> do_action (defaulted action_spec args)).
Proof.
  intros Hparse Hdo. rewrite (action_main_unfold _ _ _ _ _ Hparse).
  cbn zeta. rewrite Hdo. cbn [fst snd]. split; [done|].
  rewrite !stdout_app, stdout_do_action_call, stdout_app, !stdout_prints.
  rewrite stdout_preamble.
  by rewrite (proj1 (parse_arguments_trace _ _ _ _ _ Hparse)).
Qed.

Lemma plain_parse_arguments :
  parse_arguments required_world plain_spec
  = ([], Returned ([("user", VNone)], false)).
Proof. vm_compute. reflexivity. Qed.

(** A run that prints two outputs, each in both forms. *)
Lemma outputs_emitted_twice_witness :
  (action_main required_world plain_spec).2
    = Returned [("foo", VStr "bar"); ("count", VInt 2)]
  ∧ stdout (action_main required_world plain_spec).1
    = [ "::set-output name=foo::bar"; "::set-output name=count::2";
        "set-output name=foo::bar"; "set-output name=count::2" ].
Proof.
  destruct (outputs_emitted_twice required_world plain_spec example_outputs
              [] [("user", VNone)] plain_parse_arguments eq_refl)
    as [Hresult Hstdout].
  split.
  - rewrite Hresult. reflexivity.
  - rewrite Hstdout. vm_compute. reflexivity.
Defined.

(** C7: when [parse_arguments] returns with the flag set, [action_main]
    still calls [set_defaults] when there is one, logs the heading and one
    record per argument, logs that required arguments are missing and
    exits with status 1; it does not call [do_action] and prints no output
    line. *)
Theorem missing_arguments_exit_after_log w action_spec t args :
  parse_arguments w action_spec = (t, Returned (args, true)) →
  action_main w action_spec
    = (t ++ preamble action_spec args
         ++ [Log ERROR "Some required arguments are missing!"],
       Exited 1)
  ∧ (∀ set_defaults,
       ActionSpec.set_defaults action_spec = Some set_defaults →
       CallSetDefaults args ∈ preamble action_spec args
       ∧ defaulted action_spec args = set_defaults args)
  ∧ (∀ item, item ∈ defaulted action_spec args →
             argument_record item ∈ preamble action_spec args)
  ∧ (∀ a, CallDoAction a ∉ (action_main w action_spec).1)
  ∧ stdout (action_main w action_spec).1 = [].
Proof.
  intros Hparse. rewrite (action_main_unfold _ _ _ _ _ Hparse).
  cbn zeta. cbn [fst snd]. rewrite <- app_assoc.
  destruct (parse_arguments_trace _ _ _ _ _ Hparse) as [Hout Hlog].
  split_and!.
  - done.
  - intros set_defaults Hsd. unfold preamble, set_defaults_call, defaulted.
    rewrite Hsd. split; [|done]. apply elem_of_app. left. left.
  - intros item Hitem. unfold preamble. apply elem_of_app. right. right.
    apply list_elem_of_fmap_2. unfold sorted_items.
    by rewrite merge_sort_Permutation.
  - intros a [Hin|Hin]%elem_of_app.
    + by destruct (Hlog _ Hin).
    + apply elem_of_app in Hin as [Hin|Hin].
      * by apply do_action_not_in_preamble in Hin.
      * by apply list_elem_of_singleton in Hin.
  - by rewrite !stdout_app, Hout, stdout_preamble.
Qed.

(** The example run, in which [api-key] is flagged. *)
Lemma missing_arguments_exit_after_log_witness :
  action_main example_world example_spec
  = ([ Log ERROR "Missing required argument api-key";
       Log INFO "foo bar, with arguments:";
       Log INFO "  api_key=k2:";
       Log INFO "  token=********:";
       Log INFO "  user=alice:";
       Log ERROR "Some required arguments are missing!" ],
     Exited 1).
Proof.
  destruct (missing_arguments_exit_after_log example_world example_spec _ _
              example_parse_arguments) as [Hmain _].
  rewrite Hmain. vm_compute. reflexivity.
Defined.

(** C10: when no required argument is missing and the [ActionSpec] has no
    [do_action], [action_main] prints no output line and returns the empty
    mapping. *)
Theorem no_action_no_output w action_spec t args :
  parse_arguments w action_spec = (t, Returned (args, false)) →
  ActionSpec.do_action action_spec = None →
  (action_main w action_spec).2 = Returned []
  ∧ stdout (action_main w action_spec).1 = [].
Proof.
  intros Hparse Hdo. rewrite (action_main_unfold _ _ _ _ _ Hparse).
  cbn zeta. rewrite Hdo. cbn [fst snd]. split; [done|].
  rewrite stdout_app, stdout_preamble.
  by rewrite (proj1 (parse_arguments_trace _ _ _ _ _ Hparse)).
Qed.

(** A run without [do_action]. *)
Lemma no_action_no_output_witness :
  (action_main shared_world shared_spec).2 = Returned []
  ∧ stdout (action_main shared_world shared_spec).1 = [].
Proof.
  exact (no_action_no_output shared_world shared_spec []
           [("a_b", VStr "1")] shared_parse_arguments eq_refl).
Defined.

(** ** The fields after construction *)

(** C9: an [ActionSpec] that comes from its constructor has [long_name],
    [description] and [env_prefix] set to a string, never [None]: the
    value given when there is one and it is not empty, the value of [name]
    otherwise. Running the normalisation again changes nothing, and the
    [replace] that [parse_arguments] calls on [env_prefix] finds that
    string. *)
Theorem constructed_fields_never_None (filename name : string)
    (long_name description env_prefix : option string)
    (set_defaults do_action : option (dict value → dict value)) :
  let action_spec :=
    ActionSpec.new filename name long_name description env_prefix
      set_defaults do_action in
  ActionSpec.long_name action_spec
    = Some (if given long_name then from_option id name long_name else name)
  ∧ ActionSpec.description action_spec
    = Some (if given description then from_option id name description
            else name)
  ∧ ActionSpec.env_prefix action_spec
    = Some (if given env_prefix then from_option id name env_prefix
            else name)
  ∧ ActionSpec.name action_spec = name
  ∧ ActionSpec.__post_init__ action_spec = action_spec
  ∧ attr_str (ActionSpec.env_prefix action_spec)
    = ([], Returned (if given env_prefix
                     then from_option id name env_prefix else name)).
Proof.
  cbn zeta. unfold ActionSpec.new.
  split_and!; try (cbn; by rewrite or_given).
  - done.
  - apply post_init_idempotent.
Qed.

(** ** Inputs that [add_argument] accepts *)


(** * Further properties of the code *)

(** ** [get_env] on lists of names *)

(** X1: looking names up in a concatenated list is looking them up in the
    first list with, as default, the result of looking them up in the
    second. *)
Theorem get_env_app (environ : environment) (l1 l2 : list string)
    (default : value) :
  get_env environ (l1 ++ l2) default
  = get_env environ l1 (get_env environ l2 default).
Proof.
  induction l1 as [|n l1 IH]; [done|].
  rewrite <- app_comm_cons, !get_env_cons, IH. done.
Qed.

(** X2: [get_env] reads the environment at the names of the list only: two
    environments that agree there give the same result. *)
Theorem get_env_agree (environ1 environ2 : environment)
    (envar_list : list string) (default : value) :
  (∀ n, n ∈ envar_list → environ1 !! n = environ2 !! n) →
  get_env environ1 envar_list default = get_env environ2 envar_list default.
Proof.
  induction envar_list as [|n l IH]; intros Hagree; [done|].
  rewrite !get_env_cons. unfold set_nonempty.
  rewrite (Hagree n) by left. rewrite IH; [done|].
  intros n' Hn'. apply Hagree. by right.
Qed.

(** Another variable in the environment does not change what is found. *)
Lemma get_env_agree_witness :
  get_env {[ "INPUT_USER" := "alice"; "HOME" := "/root" ]}
    ["FOO_USER"; "INPUT_USER"] VNone
  = get_env {[ "INPUT_USER" := "alice" ]} ["FOO_USER"; "INPUT_USER"] VNone.
Proof.
  apply get_env_agree.
  refine (proj1 (Forall_forall
            (λ n, ({[ "INPUT_USER" := "alice"; "HOME" := "/root" ]}
                     : environment) !! n
                  = ({[ "INPUT_USER" := "alice" ]} : environment) !! n)
            ["FOO_USER"; "INPUT_USER"]) _).
  compute_done.
Defined.

(** ** The keys of the namespace *)








(** ** The value under a shared attribute *)









(** ** The inputs the check of the required arguments reports *)








(** ** Runs that [parse_arguments] ends *)

Lemma add_arguments_outcome environ prefix arguments parser :
  (∃ parser', add_arguments environ (Some prefix) arguments parser
              = ([], Returned parser'))
  ∨ add_arguments environ (Some prefix) arguments parser = ([], Raised ValueError)
  ∨ add_arguments environ (Some prefix) arguments parser
    = ([], Raised ArgumentError).
Proof.
  revert parser. induction arguments as [|a l IH]; intros parser.
  - left. by eexists.
  - cbn [add_arguments attr_str]. rewrite mret_bind.
    unfold argparse.add_argument.
    destruct (decide _); [by right; left|].
    destruct (decide _); [by right; right|].
    rewrite mret_bind. apply IH.
Qed.

Lemma add_arguments_returned_names environ prefix arguments parser t parser' :
  add_arguments environ (Some prefix) arguments parser = (t, Returned parser') →
  Forall (λ a, lstrip "-" (ArgSpec.name a) ≠ "") arguments.
Proof.
  revert parser t. induction arguments as [|a l IH]; intros parser t;
    [by constructor|].
  cbn [add_arguments attr_str]. rewrite mret_bind. intros H.
  apply bind_returned_inv in H as (t1 & p1 & t2 & Hadd & H & ->).
  apply add_argument_returned in Hadd as (_ & Hdest & _).
  constructor; [exact Hdest|by eapply IH].
Qed.

(** X7: an input whose name is empty or made of dashes only, and an input
    named [help], cannot be registered: [parse_arguments] raises a
    [ValueError] or an [ArgumentError] before it reads the command line,
    and so does [action_main], with nothing logged and nothing called. *)
Theorem unusable_input_name_raises w action_spec prefix
    (inputs : dict (dict value)) input :
  ActionSpec.env_prefix action_spec = Some prefix →
  files w !! ActionSpec.filename action_spec = Some inputs →
  input ∈ keys inputs →
  lstrip "-" input = "" ∨ input = "help" →
  ∃ e, (e = ValueError ∨ e = ArgumentError)
       ∧ parse_arguments w action_spec = ([], Raised e)
       ∧ action_main w action_spec = ([], Raised e).
Proof.
  intros Hp Hfile Hin Hbad.
  assert (Hparse : ∀ e,
    add_arguments (environ w) (Some prefix) (read_inputs (environ w) inputs)
      (argparse.new (ActionSpec.description action_spec)) = ([], Raised e) →
    parse_arguments w action_spec = ([], Raised e)
    ∧ action_main w action_spec = ([], Raised e)).
  { intros e Hadd.
    assert (parse_arguments w action_spec = ([], Raised e)) as Hraise.
    { unfold parse_arguments, open_manifest.
      rewrite Hfile, Hp, mret_bind, Hadd. done. }
    split; [done|]. unfold action_main. by rewrite Hraise. }
  destruct (add_arguments_outcome (environ w) prefix
              (read_inputs (environ w) inputs)
              (argparse.new (ActionSpec.description action_spec)))
    as [[parser Hret]|[Hval|Harg]].
  - exfalso.
    assert (Ha : ∃ a, a ∈ read_inputs (environ w) inputs
                      ∧ ArgSpec.name a = input).
    { unfold keys in Hin.
      apply list_elem_of_fmap in Hin as ([input' d] & -> & Hin).
      exists (read_input (environ w) (input', d)). split; [|done].
      rewrite read_inputs_fmap. by apply list_elem_of_fmap_2. }
    destruct Ha as (a & Ha & <-).
    destruct Hbad as [Hempty|Hhelp].
    + apply add_arguments_returned_names in Hret.
      rewrite Forall_forall in Hret. by apply (Hret a Ha).
    + apply add_arguments_returned in Hret as (_ & _ & _ & _ & Hfresh).
      rewrite Forall_forall in Hfresh. apply (Hfresh a Ha). rewrite Hhelp.
      cbn. right. left.
  - exists ValueError. split; [by left|]. by apply Hparse.
  - exists ArgumentError. split; [by right|]. by apply Hparse.
Qed.

Lemma unusable_input_name_raises_witness :
  ∃ e, (e = ValueError ∨ e = ArgumentError)
       ∧ parse_arguments help_world required_spec = ([], Raised e)
       ∧ action_main help_world required_spec = ([], Raised e).
Proof.
  apply (unusable_input_name_raises help_world required_spec "foo"
           help_inputs "help").
  - reflexivity.
  - vm_compute. reflexivity.
  - compute_done.
  - by right.
Defined.

(** X8: without its manifest, [parse_arguments] raises [FileNotFoundError]
    before anything else happens, and [action_main] with it: nothing is
    logged and neither [set_defaults] nor [do_action] is called. *)
Theorem missing_manifest_raises w action_spec :
  files w !! ActionSpec.filename action_spec = None →
  parse_arguments w action_spec = ([], Raised FileNotFoundError)
  ∧ action_main w action_spec = ([], Raised FileNotFoundError).
Proof.
  intros Hfile.
  assert (parse_arguments w action_spec = ([], Raised FileNotFoundError))
    as Hraise.
  { unfold parse_arguments, open_manifest. by rewrite Hfile. }
  split; [done|]. unfold action_main. by rewrite Hraise.
Qed.

Lemma missing_manifest_raises_witness :
  parse_arguments (BuildWorld ∅ ∅ []) required_spec
  = ([], Raised FileNotFoundError)
  ∧ action_main (BuildWorld ∅ ∅ []) required_spec
  = ([], Raised FileNotFoundError).
Proof.
  apply missing_manifest_raises. reflexivity.
Defined.







(** ** Exit statuses *)






(** ** The order of a run without missing arguments *)

(** X11: on a run without missing arguments, [do_action] is called once,
    with the dictionary that [set_defaults] returned (the namespace itself
    when there is no [set_defaults]), after the heading and the arguments
    were logged and before the first output line; nothing follows the
    output lines. *)
Theorem do_action_called_after_log w action_spec do_action t args :
  parse_arguments w action_spec = (t, Returned (args, false)) →
  ActionSpec.do_action action_spec = Some do_action →
  (action_main w action_spec).1
  = t ++ set_defaults_call action_spec args
      ++ [Log INFO (str_of (ActionSpec.long_name action_spec)
                    +:+ ", with arguments:")]
      ++ (argument_record <$> sorted_items (defaulted action_spec args))
      ++ [CallDoAction (defaulted action_spec args)]
      ++ (Print ∘ prefixed_line <$> do_action (defaulted action_spec args))
      ++ (Print ∘ unprefixed_line <$> do_action (defaulted action_spec args)).
Proof.
  intros Hparse Hdo. rewrite (action_main_unfold _ _ _ _ _ Hparse).
  cbn zeta. rewrite Hdo. cbn [fst]. unfold preamble.
  rewrite <- !app_assoc. done.
Qed.

Lemma echo_parse_arguments :
  parse_arguments echo_world echo_spec
  = ([], Returned ([("user", VStr "alice")], false)).
Proof. vm_compute. reflexivity. Qed.

(** [do_action] sees the user name that [set_defaults] put in upper case. *)
Lemma do_action_called_after_log_witness :
  (action_main echo_world echo_spec).1
  = [ CallSetDefaults [("user", VStr "alice")];
      Log INFO "foo, with arguments:";
      Log INFO "  user=ALICE:";
      CallDoAction [("user", VStr "ALICE")];
      Print "::set-output name=greeting::ALICE";
      Print "set-output name=greeting::ALICE" ].
Proof.
  rewrite (do_action_called_after_log echo_world echo_spec echo_user []
             [("user", VStr "alice")] echo_parse_arguments eq_refl).
  vm_compute. reflexivity.
Defined.

(** X12: the loop that logs the arguments writes one record per argument,
    in ascending order of the names, whatever the order of the dictionary. *)
Theorem log_arguments_sorted (args : dict value) :
  ∃ items,
    log_arguments args = (argument_record <$> items, Returned tt)
    ∧ items ≡ₚ args
    ∧ StronglySorted String.le (keys items).
Proof.
  exists (sorted_items args). split_and!.
  - apply log_arguments_trace.
  - apply merge_sort_Permutation.
  - unfold keys. apply (StronglySorted_fmap _ key_le String.le).
    + by intros x y.
    + apply StronglySorted_merge_sort; apply _.
Qed.

(** ** Defaults that stay as they are written *)

Lemma expandvars_scan_no_dollar environ copy (path : string) :
  (∀ c, c ∈ list_ascii_of_string path → c ≠ "$"%char) →
  expandvars_scan environ copy 0 path = path.
Proof.
  revert copy. induction path as [|c path IH]; intros copy Hpath; [done|].
  assert (Hrest : ∀ copy', expandvars_scan environ copy' 0 path = path).
  { intros copy'. apply IH. intros c' Hc'. apply Hpath. by right. }
  cbn [expandvars_scan]. destruct copy as [|copy]; [|by rewrite Hrest].
  destruct (Ascii.eqb_spec c "$") as [->|_].
  - by destruct (Hpath "$"%char (list_elem_of_here _ _)).
  - by rewrite Hrest.
Qed.

Lemma expandvars_scan_unbound environ copy (path : string) :
  (∀ name, environ !! name = None) →
  expandvars_scan environ copy 0 path = path.
Proof.
  intros Hnone. revert copy. induction path as [|c path IH]; intros copy;
    [done|].
  cbn [expandvars_scan]. destruct copy as [|copy]; [|by rewrite IH].
  destruct (Ascii.eqb c "$"); [|by rewrite IH].
  destruct (match_var path) as [[name n]|]; [|by rewrite IH].
  by rewrite Hnone, IH.
Qed.

(** X13: a string default is kept as it is written when it has no dollar
    sign, and when the environment has no variable at all. *)
Theorem default_kept_verbatim environ (inputs : dict (dict value)) i input
    input_dict s :
  inputs !! i = Some (input, input_dict) →
  dict_get "default" input_dict = Some (VStr s) →
  (∀ c, c ∈ list_ascii_of_string s → c ≠ "$"%char)
  ∨ (∀ name, environ !! name = None) →
  ArgSpec.default <$> read_inputs environ inputs !! i = Some (VStr s).
Proof.
  intros Hi Hdefault Hkeep. rewrite read_inputs_fmap, list_lookup_fmap.
  rewrite (f_equal (fmap (M:=option) (read_input environ)) Hi).
  cbn. unfold manifest_default. rewrite Hdefault. do 2 f_equal.
  unfold expandvars. destruct Hkeep as [Hkeep|Hkeep].
  - by apply expandvars_scan_no_dollar.
  - by apply expandvars_scan_unbound.
Qed.

Lemma default_kept_verbatim_witness :
  ArgSpec.default
    <$> read_inputs {[ "main" := "other" ]} plain_default_inputs !! 0
  = Some (VStr "main").
Proof.
  apply (default_kept_verbatim _ plain_default_inputs 0 "branch"
           [("default", VStr "main")] "main").
  - reflexivity.
  - reflexivity.
  - left.
    refine (proj1 (Forall_forall (λ c, c ≠ "$"%char)
                     (list_ascii_of_string "main")) _).
    compute_done.
Defined.

(** ** Defaults that refer to one variable *)

Lemma expandvars_scan_copy environ copy (text : string) :
  String.length text ≤ copy → expandvars_scan environ copy 0 text = text.
Proof.
  revert copy. induction text as [|c text IH]; intros copy; [done|].
  cbn [String.length expandvars_scan]. destruct copy as [|copy]; [lia|].
  intros ?. rewrite IH; [done|lia].
Qed.

Lemma expandvars_scan_unbound_reference environ rest name n :
  match_var rest = Some (name, n) →
  environ !! name = None →
  expandvars_scan environ 0 0 (String "$" rest)
  = String "$" (expandvars_scan environ n 0 rest).
Proof. intros Hm Hl. cbn [expandvars_scan]. by rewrite Hm, Hl. Qed.

Lemma expandvars_braced_unbound environ name :
  (∀ c, c ∈ list_ascii_of_string name → c ≠ "}"%char) →
  environ !! name = None →
  expandvars environ ("${" +:+ name +:+ "}") = "${" +:+ name +:+ "}".
Proof.
  intros Hname Hlookup. unfold expandvars.
  change ("${" +:+ name +:+ "}")
    with (String "$" (String "{" (name +:+ String "}" ""))).
  rewrite (expandvars_scan_unbound_reference _ _ name (2 + String.length name)).
  - f_equal. apply expandvars_scan_copy.
    cbn [String.length]. rewrite length_app_string. cbn. lia.
  - cbn [match_var]. by rewrite brace_body_app.
  - done.
Qed.

(** X14: a default that is one braced reference, as the [${GHE_TOKEN}] of
    the documented manifest, becomes the value of the variable when the
    environment binds it, and stays the text of the reference, not [None],
    when it does not. *)
Theorem braced_default environ (inputs : dict (dict value)) i input
    input_dict name :
  inputs !! i = Some (input, input_dict) →
  dict_get "default" input_dict = Some (VStr ("${" +:+ name +:+ "}")) →
  (∀ c, c ∈ list_ascii_of_string name → c ≠ "}"%char) →
  ArgSpec.default <$> read_inputs environ inputs !! i
  = Some (VStr (from_option id ("${" +:+ name +:+ "}") (environ !! name))).
Proof.
  intros Hi Hdefault Hname. rewrite read_inputs_fmap, list_lookup_fmap.
  rewrite (f_equal (fmap (M:=option) (read_input environ)) Hi).
  cbn. unfold manifest_default. rewrite Hdefault. do 2 f_equal.
  destruct (environ !! name) as [value|] eqn:Hlookup; cbn.
  - by apply expandvars_braced.
  - by apply expandvars_braced_unbound.
Qed.

(** Without [GHE_TOKEN], the default of [token] is the text of the
    reference. *)
Lemma braced_default_witness :
  ArgSpec.default <$> read_inputs ∅ example_inputs !! 1
  = Some (VStr "${GHE_TOKEN}").
Proof.
  assert (Hname : ∀ c, c ∈ list_ascii_of_string "GHE_TOKEN" → c ≠ "}"%char).
  { refine (proj1 (Forall_forall (λ c, c ≠ "}"%char)
                     (list_ascii_of_string "GHE_TOKEN")) _).
    compute_done. }
  rewrite (braced_default ∅ example_inputs 1 "token" _ "GHE_TOKEN"
             eq_refl eq_refl Hname).
  vm_compute. reflexivity.
Defined.

(** ** What a constructed [ActionSpec] makes the run use *)





(** ** Runs that return *)

(** X16: [action_main] returns only when [parse_arguments] returned with
    the flag unset, and what it returns is then what [do_action] returns on
    the arguments after [set_defaults], or the empty dictionary when there
    is no [do_action]. *)
Theorem action_main_returns_only_unflagged w action_spec t outputs :
  action_main w action_spec = (t, Returned outputs) →
  ∃ t0 args,
    parse_arguments w action_spec = (t0, Returned (args, false))
    ∧ outputs = match ActionSpec.do_action action_spec with
                | Some do_action => do_action (defaulted action_spec args)
                | None => []
                end.
Proof.
  destruct (parse_arguments w action_spec) as [t0 [[args missing_args]| |]]
    eqn:Hparse.
  - rewrite (action_main_unfold _ _ _ _ _ Hparse). cbn zeta.
    destruct missing_args; [done|]. intros Hmain. exists t0, args.
    split; [done|].
    destruct (ActionSpec.do_action action_spec); by injection Hmain as _ <-.
  - unfold action_main. rewrite (bind_exited _ _ _ _ Hparse).
    intros Hmain. discriminate Hmain.
  - unfold action_main. rewrite (bind_raised _ _ _ _ Hparse).
    intros Hmain. discriminate Hmain.
Qed.

Lemma echo_action_main :
  action_main echo_world echo_spec
  = ([ CallSetDefaults [("user", VStr "alice")];
       Log INFO "foo, with arguments:";
       Log INFO "  user=ALICE:";
       CallDoAction [("user", VStr "ALICE")];
       Print "::set-output name=greeting::ALICE";
       Print "set-output name=greeting::ALICE" ],
     Returned [("greeting", VStr "ALICE")]).
Proof. vm_compute. reflexivity. Qed.

Lemma action_main_returns_only_unflagged_witness :
  ∃ t0 args,
    parse_arguments echo_world echo_spec = (t0, Returned (args, false))
    ∧ [("greeting", VStr "ALICE")]
      = match ActionSpec.do_action echo_spec with
        | Some do_action => do_action (defaulted echo_spec args)
        | None => []
        end.
Proof.
  exact (action_main_returns_only_unflagged echo_world echo_spec _ _
           echo_action_main).
Defined.

(** * References to the environment, in full *)

(** ** Name characters *)

Lemma is_word_name_char (c : ascii) : is_word c = bool_decide (name_char c).
Proof.
  destruct c as [[] [] [] [] [] [] [] []]; vm_compute; reflexivity.
Qed.

Lemma name_char_not_brace (c : ascii) : name_char c → c ≠ "{"%char.
Proof.
  intros Hc ->. apply (bool_decide_pack _) in Hc.
  rewrite <- is_word_name_char in Hc. exact Hc.
Qed.

Lemma not_starts_span_word (s : string) :
  ¬ starts_with_name_char s → span_word s = "".
Proof.
  destruct s as [|c s]; [done|]. cbn [starts_with_name_char span_word].
  rewrite is_word_name_char. intros Hc. by rewrite bool_decide_eq_false_2.
Qed.

Lemma span_word_app (name rest : string) :
  (∀ c, c ∈ list_ascii_of_string name → name_char c) →
  ¬ starts_with_name_char rest →
  span_word (name +:+ rest) = name.
Proof.
  intros Hname Hrest. induction name as [|c name IH].
  - by apply not_starts_span_word.
  - change (String c name +:+ rest) with (String c (name +:+ rest)).
    cbn [span_word]. rewrite is_word_name_char.
    rewrite bool_decide_eq_true_2 by (apply Hname; left).
    rewrite IH; [done|]. intros c' Hc'. apply Hname. by right.
Qed.

(** Every string is its longest run of name characters and a rest. *)
Lemma span_word_split (s : string) :
  ∃ rest, s = span_word s +:+ rest
          ∧ (∀ c, c ∈ list_ascii_of_string (span_word s) → name_char c)
          ∧ ¬ starts_with_name_char rest.
Proof.
  induction s as [|c s (rest & Hs & Hname & Hrest)].
  - exists "". split_and!; [done| |by intros ?].
    cbn. by intros c ?%elem_of_nil.
  - cbn [span_word]. rewrite is_word_name_char.
    destruct (decide (name_char c)) as [Hc|Hc].
    + rewrite bool_decide_eq_true_2 by done. exists rest. split_and!.
      * change (String c (span_word s) +:+ rest)
          with (String c (span_word s +:+ rest)). by rewrite <- Hs.
      * intros c' [->|Hc']%elem_of_cons; auto.
      * done.
    + rewrite bool_decide_eq_false_2 by done. exists (String c s).
      split_and!; [done| |done]. cbn. by intros c' ?%elem_of_nil.
Qed.

(** ** Braces *)

Lemma brace_body_Some (s name : string) :
  brace_body s = Some name →
  ∃ post, s = name +:+ String "}" post
          ∧ ∀ c, c ∈ list_ascii_of_string name → c ≠ "}"%char.
Proof.
  revert name. induction s as [|c s IH]; intros name; [done|].
  cbn [brace_body]. destruct (Ascii.eqb_spec c "}") as [->|Hc].
  - intros [= <-]. exists s. split; [done|]. by intros c ?%elem_of_nil.
  - destruct (brace_body s) as [body|]; [|done]. cbn. intros [= <-].
    destruct (IH body eq_refl) as (post & -> & Hbody). exists post.
    split; [done|]. intros c' [->|Hc']%elem_of_cons; auto.
Qed.

Lemma brace_body_None (s : string) :
  brace_body s = None → ∀ body post, s ≠ body +:+ String "}" post.
Proof.
  induction s as [|c s IH]; intros Hnone body post.
  - by destruct body.
  - cbn [brace_body] in Hnone. destruct (Ascii.eqb_spec c "}") as [->|Hc];
      [done|].
    destruct (brace_body s) as [b|] eqn:Hs; [done|].
    destruct body as [|c' body].
    + intros [= -> _]. done.
    + change (String c' body +:+ String "}" post)
        with (String c' (body +:+ String "}" post)).
      intros [= _ Heq]. by apply (IH eq_refl body post).
Qed.

Lemma brace_body_closed (body post : string) :
  ∃ name, brace_body (body +:+ String "}" post) = Some name.
Proof.
  destruct (brace_body (body +:+ String "}" post)) as [name|] eqn:Hb;
    [by eexists|].
  by destruct (brace_body_None _ Hb body post).
Qed.

(** ** The match after a dollar sign *)

Lemma match_var_not_brace (c : ascii) (s : string) :
  c ≠ "{"%char →
  match_var (String c s)
  = if String.eqb (span_word (String c s)) "" then None
    else Some (span_word (String c s), String.length (span_word (String c s))).
Proof.
  intros Hc. destruct c as [[] [] [] [] [] [] [] []]; try reflexivity.
  by destruct Hc.
Qed.

Lemma match_var_braced (name rest : string) :
  (∀ c, c ∈ list_ascii_of_string name → c ≠ "}"%char) →
  match_var (String "{" (name +:+ String "}" rest))
  = Some (name, 2 + String.length name).
Proof. intros Hname. cbn [match_var]. by rewrite brace_body_app. Qed.

Lemma match_var_plain (name rest : string) :
  name ≠ "" →
  (∀ c, c ∈ list_ascii_of_string name → name_char c) →
  ¬ starts_with_name_char rest →
  match_var (name +:+ rest) = Some (name, String.length name).
Proof.
  intros Hne Hname Hrest. destruct name as [|c name]; [done|].
  change (String c name +:+ rest) with (String c (name +:+ rest)).
  rewrite match_var_not_brace by (apply name_char_not_brace, Hname; left).
  change (String c (name +:+ rest)) with (String c name +:+ rest).
  by rewrite span_word_app.
Qed.

Lemma match_var_none (rest : string) :
  ¬ starts_with_name_char rest →
  (∀ body post, rest ≠ String "{" (body +:+ String "}" post)) →
  match_var rest = None.
Proof.
  intros Hstart Hclose. destruct rest as [|c rest]; [done|].
  destruct (decide (c = "{"%char)) as [->|Hc].
  - cbn [match_var]. destruct (brace_body rest) as [name|] eqn:Hb; [|done].
    apply brace_body_Some in Hb as (post & -> & _).
    by destruct (Hclose name post).
  - rewrite match_var_not_brace by done.
    by rewrite (not_starts_span_word _ Hstart).
Qed.

(** ** The scan, reference by reference *)

Lemma string_app_assoc (s1 s2 s3 : string) :
  (s1 +:+ s2) +:+ s3 = s1 +:+ (s2 +:+ s3).
Proof.
  induction s1 as [|c s1 IH]; [done|].
  change (String c ((s1 +:+ s2) +:+ s3) = String c (s1 +:+ (s2 +:+ s3))).
  by rewrite IH.
Qed.

Lemma expandvars_scan_drop_prefix environ copy (pre post : string) :
  expandvars_scan environ copy (String.length pre) (pre +:+ post)
  = expandvars_scan environ copy 0 post.
Proof.
  induction pre as [|c pre IH]; [done|].
  change (String c pre +:+ post) with (String c (pre +:+ post)).
  cbn [String.length expandvars_scan]. exact IH.
Qed.

Lemma expandvars_scan_copy_prefix environ (pre post : string) :
  expandvars_scan environ (String.length pre) 0 (pre +:+ post)
  = pre +:+ expandvars_scan environ 0 0 post.
Proof.
  induction pre as [|c pre IH]; [done|].
  change (String c pre +:+ post) with (String c (pre +:+ post)).
  cbn [String.length expandvars_scan]. rewrite IH. done.
Qed.

Lemma expandvars_char environ (c : ascii) (rest : string) :
  c ≠ "$"%char →
  expandvars environ (String c rest) = String c (expandvars environ rest).
Proof.
  intros Hc. unfold expandvars. cbn [expandvars_scan].
  by destruct (Ascii.eqb_spec c "$").
Qed.

Lemma expandvars_no_reference environ (rest : string) :
  match_var rest = None →
  expandvars environ (String "$" rest) = String "$" (expandvars environ rest).
Proof. intros Hm. unfold expandvars. cbn [expandvars_scan]. by rewrite Hm. Qed.

Lemma expandvars_reference environ (pre post name : string) :
  match_var (pre +:+ post) = Some (name, String.length pre) →
  expandvars environ (String "$" (pre +:+ post))
  = from_option id (String "$" pre) (environ !! name)
    +:+ expandvars environ post.
Proof.
  intros Hm. unfold expandvars.
  destruct (environ !! name) as [value|] eqn:Hlookup; cbn [from_option id].
  - rewrite (expandvars_scan_reference _ _ _ _ _ Hm Hlookup).
    by rewrite expandvars_scan_drop_prefix.
  - rewrite (expandvars_scan_unbound_reference _ _ _ _ Hm Hlookup).
    by rewrite expandvars_scan_copy_prefix.
Qed.

Lemma prefix_brace (s : string) : String.prefix "{" (String "{" s) = true.
Proof.
  cbn [String.prefix]. destruct (ascii_dec "{" "{"); [by destruct s|done].
Qed.

(** What [expanded] relates a text to is the result of [expandvars]. *)
Lemma expanded_expandvars environ (text text' : string) :
  expanded environ text text' → text' = expandvars environ text.
Proof.
  induction 1 as [|c rest rest' Hc _ ->|name rest rest' Hname _ ->
                  |name rest rest' Hne Hname Hrest _ ->
                  |rest rest' Hstart Hclose _ ->].
  - done.
  - by rewrite expandvars_char.
  - change ("${" +:+ name +:+ "}" +:+ rest)
      with (String "$" (String "{" (name +:+ (String "}" "" +:+ rest)))).
    change ("${" +:+ name +:+ "}") with (String "$" (String "{" (name +:+ "}"))).
    rewrite <- (string_app_assoc name "}" rest).
    change (String "{" ((name +:+ "}") +:+ rest))
      with (String "{" (name +:+ "}") +:+ rest).
    rewrite (expandvars_reference _ _ _ name); [done|].
    change (String "{" (name +:+ "}") +:+ rest)
      with (String "{" ((name +:+ "}") +:+ rest)).
    rewrite (string_app_assoc name "}" rest).
    change (String.length (String "{" (name +:+ "}")))
      with (S (String.length (name +:+ "}"))).
    rewrite length_app_string. cbn [String.length].
    replace (S (String.length name + 1)) with (2 + String.length name) by lia.
    by apply match_var_braced.
  - change ("$" +:+ name +:+ rest) with (String "$" (name +:+ rest)).
    change ("$" +:+ name) with (String "$" name).
    rewrite (expandvars_reference _ _ _ name); [done|].
    by apply match_var_plain.
  - rewrite expandvars_no_reference; [done|]. apply match_var_none; [done|].
    intros body post ->. by rewrite prefix_brace in Hclose.
Qed.

Lemma braces_closed_tail (c : ascii) (rest : string) :
  braces_closed (String c rest) = true → braces_closed rest = true.
Proof. cbn [braces_closed]. by intros [_ ?]%andb_prop. Qed.

Lemma braces_closed_suffix (pre post : string) :
  braces_closed (pre +:+ post) = true → braces_closed post = true.
Proof.
  induction pre as [|c pre IH]; [done|].
  change (String c pre +:+ post) with (String c (pre +:+ post)).
  intros ?%braces_closed_tail. by apply IH.
Qed.

Lemma brace_body_no_brace (s : string) :
  brace_body s = None → "}"%char ∉ list_ascii_of_string s.
Proof.
  induction s as [|c s IH]; cbn [brace_body list_ascii_of_string].
  - intros _ ?%elem_of_nil. done.
  - destruct (Ascii.eqb_spec c "}") as [->|Hc]; [done|].
    destruct (brace_body s); [done|]. intros _ [?|?]%elem_of_cons; [done|].
    by apply IH.
Qed.

(** A text in which every [${] is closed is related to the result of
    [expandvars]. *)
Lemma expandvars_expanded environ (text : string) :
  braces_closed text = true →
  expanded environ text (expandvars environ text).
Proof.
  remember (String.length text) as n eqn:Hn. revert text Hn.
  induction n as [n IH] using lt_wf_ind. intros text -> Hclosed.
  destruct text as [|c rest]; [constructor|].
  pose proof (braces_closed_tail _ _ Hclosed) as Hrest.
  destruct (decide (c = "$"%char)) as [->|Hc].
  2:{ rewrite expandvars_char by done. constructor; [done|].
      apply (IH (String.length rest)); [cbn; lia|done..]. }
  destruct (match_var rest) as [[name n]|] eqn:Hm.
  - destruct rest as [|c rest]; [done|].
    destruct (decide (c = "{"%char)) as [->|Hc].
    + cbn [match_var] in Hm.
      destruct (brace_body rest) as [body|] eqn:Hb; [|done].
      injection Hm as <- <-.
      apply brace_body_Some in Hb as (post & -> & Hbody).
      assert (Hlen : String.length post
                     < String.length (String "$" (String "{" (body +:+ String "}" post)))).
      { cbn [String.length]. rewrite length_app_string. cbn [String.length]. lia. }
      assert (Hpost : braces_closed post = true).
      { apply (braces_closed_suffix (String "{" (body +:+ "}"))).
        change (String "{" (body +:+ "}") +:+ post)
          with (String "{" ((body +:+ "}") +:+ post)).
        by rewrite string_app_assoc. }
      pose proof (expanded_braced environ body post (expandvars environ post)
                    Hbody (IH _ Hlen post eq_refl Hpost)) as Hex.
      pose proof (expanded_expandvars _ _ _ Hex) as Heq.
      rewrite Heq in Hex. exact Hex.
    + rewrite match_var_not_brace in Hm by done.
      destruct (span_word_split (String c rest)) as (post & Hsplit & Hname & Hpost).
      destruct (String.eqb_spec (span_word (String c rest)) "") as [Hempty|Hne];
        [done|].
      injection Hm as <- <-.
      assert (Hlen : String.length post < String.length (String "$" (String c rest))).
      { pose proof (f_equal String.length Hsplit) as Hl.
        rewrite length_app_string in Hl. cbn [String.length] in Hl |- *. lia. }
      assert (Hclosed' : braces_closed post = true).
      { apply (braces_closed_suffix (span_word (String c rest))).
        by rewrite <- Hsplit. }
      pose proof (expanded_plain environ (span_word (String c rest)) post
                    (expandvars environ post) Hne Hname Hpost
                    (IH _ Hlen post eq_refl Hclosed')) as Hex.
      pose proof (expanded_expandvars _ _ _ Hex) as Heq.
      rewrite Heq in Hex.
      change ("$" +:+ span_word (String c rest) +:+ post)
        with (String "$" (span_word (String c rest) +:+ post)) in Hex.
      rewrite <- Hsplit in Hex. exact Hex.
  - rewrite expandvars_no_reference by done.
    apply expanded_dollar.
    + destruct rest as [|c rest]; [by intros ?|].
      cbn [starts_with_name_char]. intros Hc.
      rewrite match_var_not_brace in Hm by by apply name_char_not_brace.
      cbn [span_word] in Hm. rewrite is_word_name_char in Hm.
      by rewrite bool_decide_eq_true_2 in Hm.
    + destruct (String.prefix "{" rest) eqn:Hbrace; [|done].
      cbn [braces_closed] in Hclosed. rewrite Hbrace in Hclosed.
      change (Ascii.eqb "$" "$") with true in Hclosed. cbn [andb] in Hclosed.
      apply andb_prop in Hclosed as [Hin%bool_decide_eq_true_1 _].
      destruct rest as [|c rest]; [done|].
      destruct (decide (c = "{"%char)) as [->|Hc].
      * cbn [match_var] in Hm.
        destruct (brace_body rest) as [body|] eqn:Hb; [done|].
        apply brace_body_no_brace in Hb.
        cbn [list_ascii_of_string] in Hin.
        by apply elem_of_cons in Hin as [?|?].
      * cbn [String.prefix] in Hbrace.
        destruct (ascii_dec "{" c) as [<-|_]; [done|discriminate Hbrace].
    + apply (IH (String.length rest)); [cbn; lia|done..].
Qed.

(** ** Defaults of the manifest, expanded *)

(** C4: reading the manifest gives, for the input at position [i], an
    [ArgSpec] with the default of the manifest: when it is a string, a
    text that is the only possible result of replacing in it every
    reference [${name}] or [$name] (the longest run of letters, digits and
    underscores) to a variable of the environment by the value of that
    variable, from left to right and without reading the values again, the
    references to names that the environment does not have staying as they
    are written, and that is this result when every [${] of the default is
    closed; when it is no string, the default itself, and [None] without
    one. The action registered for the input resolves its value with that
    default. *)
Theorem manifest_defaults_expanded environ (inputs : dict (dict value)) i
    input input_dict :
  inputs !! i = Some (input, input_dict) →
  ∃ arg_spec,
    read_inputs environ inputs !! i = Some arg_spec
    ∧ ArgSpec.name arg_spec = input
    ∧ match dict_get "default" input_dict with
      | Some (VStr text) =>
          ∃ text',
            ArgSpec.default arg_spec = VStr text'
            ∧ (∀ other, expanded environ text other → other = text')
            ∧ (braces_closed text = true → expanded environ text text')
      | Some v => ArgSpec.default arg_spec = v
      | None => ArgSpec.default arg_spec = VNone
      end
    ∧ ∀ prefix description t parser,
        add_arguments environ (Some prefix) (read_inputs environ inputs)
          (argparse.new description) = (t, Returned parser) →
        ∃ dest help,
          argparse.actions parser !! S i
          = Some (argparse.StoreAction ["--" +:+ input] dest
                    (get_env environ
                       [ upper (replace " " "" prefix) +:+ "_" +:+ upper input;
                         "INPUT_" +:+ upper input ]
                       (ArgSpec.default arg_spec))
                    help).
Proof.
  intros Hi. exists (read_input environ (input, input_dict)).
  assert (Hlookup : read_inputs environ inputs !! i
                    = Some (read_input environ (input, input_dict))).
  { rewrite read_inputs_fmap, list_lookup_fmap.
    exact (f_equal (fmap (M:=option) (read_input environ)) Hi). }
  split_and!; [done..| |].
  - cbn [read_input ArgSpec.default snd]. unfold manifest_default.
    destruct (dict_get "default" input_dict) as [[|text| |]|]; try done.
    exists (expandvars environ text). split_and!; [done| |].
    + apply expanded_expandvars.
    + apply expandvars_expanded.
  - intros prefix description t parser Hadd.
    apply add_arguments_returned in Hadd as (_ & _ & Hact & _).
    rewrite (built_action_lookup _ _ _ _ i _ Hact Hlookup).
    by eexists _, _.
Qed.

(** In the example run, the default of [token] is a reference to
    [GHE_TOKEN], and the default read is the value of that variable. *)
Lemma manifest_defaults_expanded_witness :
  ∃ arg_spec,
    read_inputs (environ example_world) example_inputs !! 1 = Some arg_spec
    ∧ ArgSpec.name arg_spec = "token"
    ∧ expanded (environ example_world) "${GHE_TOKEN}" "s3cr3t"
    ∧ ArgSpec.default arg_spec = VStr "s3cr3t".
Proof.
  destruct (manifest_defaults_expanded (environ example_world) example_inputs
              1 "token" _ eq_refl)
    as (arg_spec & Hlookup & Hname & Hdefault & _).
  exists arg_spec. vm_compute in Hlookup. injection Hlookup as <-.
  destruct Hdefault as (text' & [= <-] & _ & Hexpanded).
  split_and!; [reflexivity..| |reflexivity].
  exact (Hexpanded eq_refl).
Defined.

(** ** The names looked up in the environment *)






